(** * termcast: the podcast episode downloader

    A shallow embedding of [download_podcast_episodes.py] and the
    properties of its reconciliation and download pipeline.

    Conventions of the embedding.
    - A Python [str] is a [string]; a text that is not ASCII is read as its
      UTF-8 bytes.  Every character the program compares a character
      against is ASCII, one byte that never occurs inside a multi-byte
      sequence, so removing it byte-wise and code-point-wise agree.
    - A Python [dict] is an insertion-ordered association list with unique
      keys (module [PyDict]).
    - The console, the file system, the cancellation event and the
      interrupts of the operator form the [World]; code that prints, reads
      or writes files, or raises, lives in the monad [M], which keeps the
      world that was reached when an exception propagates. *)

From Stdlib Require Import Ascii String Init.Byte.
From stdpp Require Import base list strings gmap fin_maps.

Set Warnings "-register-all,-abstract-large-number".

Local Open Scope string_scope.
Local Open Scope list_scope.
Local Open Scope nat_scope.

(** ** Text sanitizer: [format_text] and [format_title] *)

Module Sanitizer.

(** The list [unaccepted] of [format_text], in source order.  The double
    quote is written by its decimal code 034. *)
Definition unaccepted : list ascii :=
  [ ":"; "-"; "?"; "+"; "@"; ","; "|"; "["; "]"; "034"; ">"; "<"; "/";
    "\"; "*"; "#"; "%"; "^" ]%char.

(** [text.replace(element, '')] for a one-character [element]: every
    occurrence of the character is dropped. *)
Fixpoint replace_char (element : ascii) (text : string) : string :=
  match text with
  | EmptyString => EmptyString
  | String c rest =>
      if Ascii.eqb c element then replace_char element rest
      else String c (replace_char element rest)
  end.

(** The inner loop [for element in unaccepted: if char == element: ...],
    threading the rebound variable [text]. *)
Definition scan_unaccepted (char : ascii) (text : string) : string :=
  foldl (fun text element =>
           if Ascii.eqb char element then replace_char element text else text)
        text unaccepted.

(** [format_text]: the outer loop iterates over the characters of the
    string that was passed in (the iterator is taken before [text] is
    rebound), while the replacements accumulate in [text]. *)
Definition format_text (text : string) : string :=
  foldl (fun text char => scan_unaccepted char text)
        text (list_ascii_of_string text).

(** [format_title]: three literal overrides, anything else unchanged. *)
Definition format_title (title : string) : string :=
  if String.eqb title "At Liberty Podcast  American Civil Liberties Union"
  then "At Liberty Podcast American Civil Liberties Union"
  else if String.eqb title "Darknet Diaries Bonus Episodes"
  then "Darknet Diaries"
  else if String.eqb title "Fireside Podcast – HeadStuff"
  then "Fireside Podcast"
  else title.

(** Membership in the blacklist, as a boolean. *)
Definition is_unaccepted (c : ascii) : bool :=
  existsb (Ascii.eqb c) unaccepted.

(** Number of occurrences of blacklisted characters in a text. *)
Fixpoint count_unaccepted (text : string) : nat :=
  match text with
  | EmptyString => 0
  | String c rest =>
      (if is_unaccepted c then 1 else 0) + count_unaccepted rest
  end.

(** The text without the characters that satisfy [p], in one pass. *)
Fixpoint drop_chars (p : ascii -> bool) (text : string) : string :=
  match text with
  | EmptyString => EmptyString
  | String c rest =>
      if p c then drop_chars p rest else String c (drop_chars p rest)
  end.

(** The text without its blacklisted characters: the one-pass reference
    the nested loops of [format_text] are compared with. *)
Definition strip (text : string) : string := drop_chars is_unaccepted text.

(** [c] occurs in [text]. *)
Fixpoint occurs (c : ascii) (text : string) : bool :=
  match text with
  | EmptyString => false
  | String d rest => Ascii.eqb d c || occurs c rest
  end.

End Sanitizer.

(** ** Python dictionaries keyed by strings *)

Module PyDict.

(** A dict as the list of its items in insertion order. *)
Abbreviation t V := (list (string * V)).

Section ops.
Context {V : Type}.

(** [d[k] = v]: an existing key keeps its position and takes the new
    value, a new key goes to the end. *)
Fixpoint setitem (k : string) (v : V) (d : t V) : t V :=
  match d with
  | [] => [(k, v)]
  | (k', v') :: rest =>
      if String.eqb k' k then (k, v) :: rest
      else (k', v') :: setitem k v rest
  end.

(** [d.update(other)]. *)
Definition update (d other : t V) : t V :=
  foldl (fun d kv => setitem kv.1 kv.2 d) d other.

(** [d.items()]. *)
Definition items (d : t V) : list (string * V) := d.

(** [d.get(k)]. *)
Fixpoint get (k : string) (d : t V) : option V :=
  match d with
  | [] => None
  | (k', v') :: rest => if String.eqb k' k then Some v' else get k rest
  end.

(** The invariant of a dict: no key occurs twice. *)
Definition wf (d : t V) : Prop := NoDup (d.*1).
End ops.

End PyDict.

(** ** Parsed feeds and the episode extractor *)

Module Feed.

(** A link of an entry.  The extractor reads [link['type']] and
    [link['href']]; a link carries both, as in the data model of the
    specification. *)
Record Link := { link_type : string; href : string }.

(** An entry: [episode.title] and [episode.links]. *)
Record Entry := { title : string; links : list Link }.

(** What [feedparser.parse] returns: [feed['feed']['title']], which may be
    missing, and [feed.entries]. *)
Record FeedParserDict := { feed_title : option string; entries : list Entry }.

(** [generate_podcast_episode_urls], the two nested loops over entries and
    links. *)
Definition generate_podcast_episode_urls (feed_dict : FeedParserDict)
  : PyDict.t string :=
  foldl (fun episode_dict episode =>
    foldl (fun episode_dict link =>
      if String.eqb (link_type link) "audio/mpeg" then
        let filename := Sanitizer.format_text (title episode) in
        let filename := filename +:+ ".mp3" in
        let url := href link in
        PyDict.update episode_dict [(url, filename)]
      else episode_dict)
      episode_dict (links episode))
    [] (entries feed_dict).

(** The (url, filename) pairs of the audio links of a feed, in feed
    order: what the loops insert, one after the other. *)
Definition audio_pairs (feed_dict : FeedParserDict) : list (string * string) :=
  flat_map (fun episode =>
    flat_map (fun link =>
      if String.eqb (link_type link) "audio/mpeg"
      then [(href link, Sanitizer.format_text (title episode) +:+ ".mp3")]
      else [])
      (links episode))
    (entries feed_dict).

End Feed.

(** ** The world: exceptions, console, file system, cancellation *)

(** Python exceptions the program can meet. *)
Inductive exn :=
| KeyError | UnboundLocalError | TypeError | ValueError | AttributeError
| FileNotFoundError | NotADirectoryError | FileExistsError | IsADirectoryError
| ConnectionError
| OtherException (what : string)
| SystemExit (code : Z).

(** [isinstance(e, Exception)]: [SystemExit] derives from [BaseException]
    only. *)
Definition is_Exception (e : exn) : bool :=
  match e with SystemExit _ => false | _ => true end.

(** A path is the list of its components below the root of the model;
    relative paths are read from that root. *)
Definition path := list string.

(** The [console.print] calls of the program, by source line. *)
Inductive message :=
| NewEpisode (filename : string)                    (* line 160 *)
| DirectoryNameInvalid (absolute_path : path) (e : exn)   (* line 189 *)
| ParentNotFound (absolute_path : path)             (* line 192 *)
| OpmlException (e : exn)                           (* line 202 *)
| NotValidDirectory                                 (* line 253 *)
| MalformedFeed (podcast : string)                  (* line 271 *)
| FeedKeyError (podcast : string)                   (* line 278 *)
| FeedUnknownException (podcast : string) (e : exn) (* line 280 *)
| AlreadyDownloaded (filename : string).            (* line 312 *)

(** What a run does that can be observed.  A [Write] records the number of
    bytes written and whether the cancellation event was set at that
    instant. *)
Inductive event :=
| Print (m : message)
| Get (url : string)
| Write (target : path) (size : nat) (cancelled : bool)
| Sigint.

(** A node of the file system. *)
Inductive node := File (content : list byte) | Dir.

(** The state a run acts on.  [interrupts] is the operator: for each
    coming chunk boundary, whether a SIGINT is delivered there. *)
Record World := mkWorld {
  fs : gmap path node;
  trace : list event;
  done_event : bool;
  interrupts : list bool
}.

Definition set_fs (f : gmap path node → gmap path node) (w : World) : World :=
  mkWorld (f (fs w)) (trace w) (done_event w) (interrupts w).
Definition log (e : event) (w : World) : World :=
  mkWorld (fs w) (trace w ++ [e]) (done_event w) (interrupts w).

(** How a computation ends. *)
Inductive outcome (A : Type) := Return (a : A) | Raise (e : exn).
Arguments Return {A} a.
Arguments Raise {A} e.

(** Computations on the world; the world is kept when an exception
    propagates. *)
Definition M (A : Type) : Type := World → World * outcome A.

Definition ret {A} (a : A) : M A := fun w => (w, Return a).
Definition raise {A} (e : exn) : M A := fun w => (w, Raise e).
Definition bind {A B} (m : M A) (k : A → M B) : M B :=
  fun w => match m w with
           | (w', Return a) => k a w'
           | (w', Raise e) => (w', Raise e)
           end.

Declare Scope py_scope.
Delimit Scope py_scope with py.
Notation "'do' x <- m ; k" := (bind m (fun x => k))
  (at level 10, x name, m at level 100, k at level 200) : py_scope.
Notation "'do_' m ; k" := (bind m (fun _ => k))
  (at level 10, m at level 100, k at level 200) : py_scope.
Local Open Scope py_scope.

(** [try: m except ...]: [handler e] is the body of the first clause that
    matches [e], or [None] when no clause does. *)
Definition try_except {A} (m : M A) (handler : exn → option (M A)) : M A :=
  fun w => match m w with
           | (w', Return a) => (w', Return a)
           | (w', Raise e) =>
               match handler e with
               | Some h => h w'
               | None => (w', Raise e)
               end
           end.

(** [for x in l: body x]. *)
Fixpoint for_each {A} (body : A → M unit) (l : list A) : M unit :=
  match l with
  | [] => ret tt
  | x :: rest => do_ body x; for_each body rest
  end.

(** A [for] loop that rebinds a local variable [s]. *)
Fixpoint for_fold {A S} (body : S → A → M S) (s : S) (l : list A) : M S :=
  match l with
  | [] => ret s
  | x :: rest => do s' <- body s x; for_fold body s' rest
  end.

Definition console_print (m : message) : M unit :=
  fun w => (log (Print m) w, Return tt).

(** ** The file system behind [pathlib] and [open] *)

Module FS.

(** The node at a resolved location; the root is a directory. *)
Definition node_at (fs : gmap path node) (q : path) : option node :=
  match q with
  | [] => Some Dir
  | _ => fs !! q
  end.

(** One component of a path, followed from the location [cur]. *)
Definition step (cur : path) (c : string) : path :=
  if String.eqb c "" || String.eqb c "." then cur
  else if String.eqb c ".." then removelast cur
  else cur ++ [c].

(** Path resolution of the operating system: every location a component
    is looked up in is an existing directory; the location reached by the
    last component is not examined. *)
Fixpoint walk (fs : gmap path node) (cur : path) (comps : list string)
  : exn + path :=
  match comps with
  | [] => inr cur
  | c :: rest =>
      match node_at fs cur with
      | Some Dir => walk fs (step cur c) rest
      | Some (File _) => inl NotADirectoryError
      | None => inl FileNotFoundError
      end
  end.

Definition resolve (fs : gmap path node) (p : path) : exn + path :=
  walk fs [] p.

(** [Path.joinpath] with one relative segment that holds no separator:
    [pathlib] drops an empty segment and a [.] segment, and keeps [..]. *)
Definition joinpath (p : path) (segment : string) : path :=
  if String.eqb segment "" || String.eqb segment "." then p
  else p ++ [segment].

(** [Path.name]: the last component. *)
Definition name (p : path) : string := List.last p "".

(** [Path.is_dir()]: false when the path does not resolve. *)
Definition is_dir (fs : gmap path node) (p : path) : bool :=
  match resolve fs p with
  | inr q => match node_at fs q with Some Dir => true | _ => false end
  | inl _ => false
  end.

(** [Path.mkdir()] with its defaults ([parents=False], [exist_ok=False]). *)
Definition mkdir (p : path) : M unit :=
  fun w =>
    match resolve (fs w) p with
    | inl e => (w, Raise e)
    | inr q =>
        match node_at (fs w) q with
        | Some _ => (w, Raise FileExistsError)
        | None => (set_fs (insert q Dir) w, Return tt)
        end
    end.

(** [child_name q k] is [Some n] when [k] is the entry [n] of the
    directory at [q]. *)
Fixpoint child_name (q k : path) : option string :=
  match q, k with
  | [], [n] => Some n
  | c :: q', c' :: k' => if String.eqb c c' then child_name q' k' else None
  | _, _ => None
  end.

(** [os.listdir]: the names of the entries of the directory at [q], files
    and directories alike, in the arbitrary order of the map. *)
Definition listdir (fs : gmap path node) (q : path) : list string :=
  omap (fun kv => child_name q kv.1) (map_to_list fs).

(** [Path.iterdir()]: one path [p / n] for each entry [n]. *)
Definition iterdir (p : path) : M (list path) :=
  fun w =>
    match resolve (fs w) p with
    | inl e => (w, Raise e)
    | inr q =>
        match node_at (fs w) q with
        | None => (w, Raise FileNotFoundError)
        | Some (File _) => (w, Raise NotADirectoryError)
        | Some Dir => (w, Return (map (fun n => p ++ [n]) (listdir (fs w) q)))
        end
    end.

(** [open(p, 'wb')]: creates or truncates the file; the handle is the
    location of the file. *)
Definition open_wb (p : path) : M path :=
  fun w =>
    match resolve (fs w) p with
    | inl e => (w, Raise e)
    | inr q =>
        match node_at (fs w) q with
        | Some Dir => (w, Raise IsADirectoryError)
        | _ => (set_fs (insert q (File [])) w, Return q)
        end
    end.

(** [f.write(chunk)] on a handle: the bytes go to the end of the file. *)
Definition write (f : path) (chunk : list byte) : M unit :=
  fun w =>
    let append nd :=
      match nd with File content => File (content ++ chunk) | Dir => Dir end in
    (log (Write f (length chunk) (done_event w)) (set_fs (alter append f) w),
     Return tt).

End FS.

(** ** Cancellation *)

(** [handle_sigint]: [done_event.set()]. *)
Definition handle_sigint : M unit :=
  fun w => (log Sigint (mkWorld (fs w) (trace w) true (interrupts w)), Return tt).

(** A point where the interpreter runs pending signal handlers: the
    operator's next decision is consumed, and the handler installed by
    [signal.signal(signal.SIGINT, handle_sigint)] runs if a SIGINT came. *)
Definition poll_interrupt : M unit :=
  fun w =>
    match interrupts w with
    | [] => (w, Return tt)
    | arrived :: rest =>
        let w' := mkWorld (fs w) (trace w) (done_event w) rest in
        if arrived : bool then handle_sigint w' else (w', Return tt)
    end.

(** Bytes written while the cancellation event was set. *)
Fixpoint written_after_cancel (tr : list event) : nat :=
  match tr with
  | [] => 0
  | Write _ size true :: rest => size + written_after_cancel rest
  | _ :: rest => written_after_cancel rest
  end.

(** ** External collaborators *)

(** The response of [requests.get]: its headers and its body, which is
    complete when [get] returns (the call does not stream). *)
Record Response := { headers : list (string * string); content : list byte }.

(** ASCII lower case, for the case-insensitive header names of
    [requests]. *)
Definition lower_ascii (c : ascii) : ascii :=
  let n := nat_of_ascii c in
  if (65 <=? n)%nat && (n <=? 90)%nat then ascii_of_nat (n + 32) else c.

Fixpoint lower (s : string) : string :=
  match s with
  | EmptyString => EmptyString
  | String c rest => String (lower_ascii c) (lower rest)
  end.

(** [response.headers[key]]: [None] stands for the [KeyError]. *)
Fixpoint header (key : string) (hs : list (string * string)) : option string :=
  match hs with
  | [] => None
  | (k, v) :: rest =>
      if String.eqb (lower k) (lower key) then Some v else header key rest
  end.

(** [iter_slices] of [requests], which [iter_content] uses on a body that
    is already read: slices of [chunk_size] bytes, the last one shorter.
    [fuel] bounds the number of slices. *)
Fixpoint iter_slices (fuel chunk_size : nat) (body : list byte)
  : list (list byte) :=
  match fuel with
  | 0 => []
  | S fuel' =>
      match body with
      | [] => []
      | _ => take chunk_size body :: iter_slices fuel' chunk_size (drop chunk_size body)
      end
  end.

(** [response.iter_content(chunk_size)]; a [chunk_size] of 0 is not used
    by the program. *)
Definition iter_content (chunk_size : nat) (response : Response)
  : list (list byte) :=
  iter_slices (length (content response)) chunk_size (content response).

(** An outline node of an OPML document: its [xmlUrl] attribute, if it has
    one, and the outlines nested in it. *)
Inductive Outline := MkOutline (xmlUrl : option string) (children : list Outline).

Definition xmlUrl (o : Outline) : option string :=
  match o with MkOutline u _ => u end.
Definition children (o : Outline) : list Outline :=
  match o with MkOutline _ c => c end.

(** The libraries and the network, as the program sees them. *)
Record Env := {
  (** [feedparser.parse(url)] *)
  feedparser_parse : string → option Feed.FeedParserDict;
  (** [requests.get(url)] *)
  requests_get : string → exn + Response;
  (** [opml.parse(file)]: the top-level outlines of the document *)
  opml_parse : path → exn + list Outline;
  (** [int(s)]: [None] stands for the [ValueError] *)
  int_of_str : string → option Z
}.

(** ** The program *)

(** The built-in feed list. *)
Definition default_podcasts : list string :=
  [ "https://www.patreon.com/rss/darknetdiaries?auth=AGjk3H83-m6SXXOSdN1Ewt3QuIrvU0i6";
    "https://darknetdiaries.com/feedfree.xml";
    "https://realpython.com/podcasts/rpp/feed";
    "https://feeds.megaphone.fm/darknetdiaries";
    "https://feeds.eff.org/howtofixtheinternet";
    "https://malicious.life/feed/podcast/";
    "https://headstuff.org/tag/fireside-podcast/feed/";
    "https://www.aclu.org/podcast/feed/";
    "https://feeds.soundcloud.com/users/soundcloud:users:40330678/sounds.rss";
    "http://www.2600.com/oth-broadband.xml" ].

(** The parsed command line. *)
Record Args := {
  directory : path;
  warnings : bool;
  import_file : option path
}.

Section program.
Variable env : Env.

(** [parse_rss_url] *)
Definition parse_rss_url (rss_url : string) : option Feed.FeedParserDict :=
  let feed := feedparser_parse env rss_url in
  match feed with
  | Some feed => Some feed
  | None => None
  end.

(** [map_files] *)
Definition map_files (directory : path) : M (list string) :=
  do children <- FS.iterdir directory;
  ret (foldl (fun file_list child => file_list ++ [FS.name child]) [] children).

(** The chunk size of [download_episode]. *)
Definition chunk_size : nat := 32768.

(** [download_episode] *)
Definition download_episode (download_path : path) (filename url : string)
  : M unit :=
  do_ console_print (NewEpisode filename);
  do response <-
    (fun w => match requests_get env url with
              | inl e => (log (Get url) w, Raise e)
              | inr r => (log (Get url) w, Return r)
              end);
  do length_header <-
    match header "Content-Length" (headers response) with
    | Some v => ret v
    | None => raise KeyError
    end;
  do content_size <-
    match int_of_str env length_header with
    | Some n => ret n
    | None => raise ValueError
    end;
  do f <- FS.open_wb download_path;
  for_each (fun chunk => do_ poll_interrupt; FS.write f chunk)
           (iter_content chunk_size response).

(** [check_directory]: [True] or [None]. *)
Definition check_directory (directory : path) : M (option bool) :=
  fun w => (w, Return (if FS.is_dir (fs w) directory then Some true else None)).

(** [make_directory] *)
Definition make_directory (absolute_path : path) : M unit :=
  try_except (FS.mkdir absolute_path)
    (fun e => match e with
              | NotADirectoryError =>
                  Some (console_print (DirectoryNameInvalid absolute_path e))
              | FileNotFoundError =>
                  Some (console_print (ParentNotFound absolute_path))
              | _ => None
              end).

(** [parse_outlines]: the entries of the top-level outlines; an entry
    without [xmlUrl] raises [AttributeError]. *)
Definition parse_outlines (outline : list Outline) : M (list string) :=
  for_fold (fun podcasts outlines =>
    for_fold (fun podcasts outline_entry =>
      match xmlUrl outline_entry with
      | Some u => ret (podcasts ++ [u])
      | None => raise AttributeError
      end) podcasts (children outlines))
    [] outline.

(** [parse_opml]: [None] after a parse failure. *)
Definition parse_opml (file : path) : M (option (list string)) :=
  match opml_parse env file with
  | inl e =>
      if is_Exception e then
        do_ console_print (OpmlException e); ret None
      else raise e
  | inr outline =>
      do podcasts <- parse_outlines outline; ret (Some podcasts)
  end.

(** [main], lines 293-302: the podcast directory is created when it is
    not there, then its files are listed. *)
Definition ensure_and_list (podcast_absolute_path : path) : M (list string) :=
  do is_existing <- check_directory podcast_absolute_path;
  do_ match is_existing with
      | None => make_directory podcast_absolute_path
      | Some _ => ret tt
      end;
  map_files podcast_absolute_path.

(** [main], lines 307-314: the episodes that are not on disk. *)
Definition reconcile (warnings : bool) (existing_files : list string)
    (episodes : PyDict.t string) : M (PyDict.t string) :=
  for_fold (fun new_episodes item =>
    if bool_decide (item.2 ∈ existing_files) then
      do_ (if warnings then console_print (AlreadyDownloaded item.2) else ret tt);
      ret new_episodes
    else ret (PyDict.setitem item.1 item.2 new_episodes))
    [] (PyDict.items episodes).

(** [main], lines 316-322: the download loop. *)
Definition download_new_episodes (podcast_absolute_path : path)
    (new_episodes : PyDict.t string) : M unit :=
  for_each (fun item =>
    let download_path := FS.joinpath podcast_absolute_path item.2 in
    download_episode download_path item.2 item.1)
    (PyDict.items new_episodes).

(** [main], lines 266-322: the body of the loop over the feeds.  The
    local variable [podcast_directory_name] of [main] outlives an
    iteration; it is [None] while it is unbound. *)
Definition process_podcast (parent_directory : path) (warnings : bool)
    (podcast_directory_name : option string) (podcast : string)
  : M (option string) :=
  let feed := parse_rss_url podcast in
  match feed with
  | None =>
      do_ console_print (MalformedFeed podcast);
      ret podcast_directory_name
  | Some feed =>
      do podcast_directory_name <-
        try_except
          (match Feed.feed_title feed with
           | Some t => ret (Some t)
           | None => raise KeyError
           end)
          (fun e => match e with
                    | KeyError =>
                        Some (do_ console_print (FeedKeyError podcast);
                              ret podcast_directory_name)
                    | _ =>
                        if is_Exception e then
                          Some (do_ console_print (FeedUnknownException podcast e);
                                ret podcast_directory_name)
                        else None
                    end);
      do tmp_directory <-
        match podcast_directory_name with
        | Some n => ret (Sanitizer.format_text n)
        | None => raise UnboundLocalError
        end;
      let podcast_directory := Sanitizer.format_title tmp_directory in
      let podcast_absolute_path := FS.joinpath parent_directory podcast_directory in
      do existing_files <- ensure_and_list podcast_absolute_path;
      let episodes := Feed.generate_podcast_episode_urls feed in
      do new_episodes <- reconcile warnings existing_files episodes;
      do_ download_new_episodes podcast_absolute_path new_episodes;
      ret podcast_directory_name
  end.

(** [main], lines 256-262: the feed list, from the OPML file when one
    is given; [None] is what [parse_opml] returned on a failure. *)
Definition resolve_sources (args : Args) : M (option (list string)) :=
  match import_file args with
  | Some file => parse_opml file
  | None => ret (Some default_podcasts)
  end.

(** [main], after [parser.parse_args()].  A [Path] is always true, so
    the test [if not parent_directory] never fires and [if import_file]
    asks whether the option was given. *)
Definition main (args : Args) : M unit :=
  let parent_directory := directory args in
  do existing_directory <- check_directory parent_directory;
  do_ match existing_directory with
      | None => do_ console_print NotValidDirectory; raise (SystemExit 1)
      | Some _ => ret tt
      end;
  do podcasts <- resolve_sources args;
  match podcasts with
  | None => raise TypeError
  | Some podcasts =>
      do_ for_fold (process_podcast parent_directory (warnings args)) None podcasts;
      ret tt
  end.

End program.

(** ** Observations on runs *)

(** The world after the events [es] were logged. *)
Definition log_all (es : list event) (w : World) : World :=
  mkWorld (fs w) (trace w ++ es) (done_event w) (interrupts w).

(** The notices reconciliation is expected to print: one per episode whose
    file name is on disk, in dict order, when warnings are on. *)
Definition notices (warnings : bool) (existing_files : list string)
    (episodes : PyDict.t string) : list event :=
  if warnings
  then map (fun item => Print (AlreadyDownloaded item.2))
           (filter (fun item => item.2 ∈ existing_files) episodes)
  else [].

(** The world after one turn of the loop of [download_episode] on the
    open file [f]. *)
Definition after_chunk (f : path) (chunk : list byte) (w : World) : World :=
  ((do_ poll_interrupt; FS.write f chunk) w).1.

(** An event of the chunk loop on the open file [f]: an interrupt, or a
    write to [f] of at least one byte and at most one chunk. *)
Definition chunk_event (f : path) (e : event) : Prop :=
  match e with
  | Write target size _ => target = f ∧ 0 < size ≤ chunk_size
  | Sigint => True
  | _ => False
  end.

(** The world [w'] comes after [w] when nothing was removed from the
    file system, every directory is still a directory, and the
    cancellation event, if it was set, is set. *)
Definition later (w w' : World) : Prop :=
  (∀ k, is_Some (fs w !! k) → is_Some (fs w' !! k))
  ∧ (∀ k, fs w !! k = Some Dir → fs w' !! k = Some Dir)
  ∧ (done_event w = true → done_event w' = true).

(** A computation is steady when the world it leaves, returning or
    raising, comes after the one it started in. *)
Definition steady {A} (m : M A) : Prop := ∀ w, later w (m w).1.

(** ** Concrete inputs *)

Module Inputs.
Import Feed.

Definition audio (url : string) : Link :=
  {| link_type := "audio/mpeg"; href := url |}.
Definition html (url : string) : Link :=
  {| link_type := "text/html"; href := url |}.

(** Two entries whose audio links share one URL. *)
Definition feed_collision : FeedParserDict :=
  {| feed_title := Some "Show";
     entries := [ {| title := "a"; links := [audio "u"] |};
                  {| title := "b"; links := [audio "u"] |} ] |}.


(** A world with an empty file system and nothing logged. *)
Definition empty_world : World := mkWorld ∅ [] false [].

(** The episodes of the reconciliation scenario. *)
Definition two_episodes : PyDict.t string :=
  [("url1", "A.mp3"); ("url2", "B.mp3")].

(** A base directory that holds a file and, inside the directory of the
    podcast "Show", one episode file and a directory named like an
    episode. *)
Definition populated_fs : gmap path node :=
  <[ ["podcasts"] := Dir ]>
  (<[ ["podcasts"; "Show"] := Dir ]>
  (<[ ["podcasts"; "Show"; "A.mp3"] := File [] ]>
  (<[ ["podcasts"; "Show"; "B.mp3"] := Dir ]> ∅))).

Definition populated_world : World := mkWorld populated_fs [] false [].

(** A reading of [int] on plain decimal digits. *)
Fixpoint parse_digits (s : string) (acc : Z) : option Z :=
  match s with
  | EmptyString => Some acc
  | String c rest =>
      let n := nat_of_ascii c in
      if (48 <=? n)%nat && (n <=? 57)%nat
      then parse_digits rest (10 * acc + Z.of_nat (n - 48))
      else None
  end.

Definition decimal (s : string) : option Z :=
  match s with
  | EmptyString => None
  | _ => parse_digits s 0
  end.

(** The base directory exists and is empty. *)
Definition base_fs : gmap path node := <[ ["podcasts"] := Dir ]> ∅.
Definition base_world : World := mkWorld base_fs [] false [].

Definition args_default : Args :=
  {| directory := ["podcasts"]; warnings := false; import_file := None |}.
Definition args_import : Args :=
  {| directory := ["podcasts"]; warnings := false;
     import_file := Some ["feeds.opml"] |}.

(** The first two URLs of the built-in list. *)
Definition first_url : string :=
  "https://www.patreon.com/rss/darknetdiaries?auth=AGjk3H83-m6SXXOSdN1Ewt3QuIrvU0i6".
Definition second_url : string := "https://darknetdiaries.com/feedfree.xml".

(** A feed with two episodes. *)
Definition feed_two : FeedParserDict :=
  {| feed_title := Some "Show";
     entries := [ {| title := "One"; links := [html "page"; audio "u1"] |};
                  {| title := "Two"; links := [audio "u2"] |} ] |}.

(** A feed without a title, with one episode. *)
Definition feed_untitled : FeedParserDict :=
  {| feed_title := None;
     entries := [ {| title := "Other"; links := [audio "u3"] |} ] |}.

(** An OPML file that does not parse, and answers to the two audio URLs:
    [u1] comes without a Content-Length header, [u2] and [u3] with one. *)
Definition network (feeds : string → option FeedParserDict) : Env :=
  {| feedparser_parse := feeds;
     requests_get := fun url =>
       if String.eqb url "u1" then
         inr {| headers := [("Content-Type", "audio/mpeg")]; content := [x01] |}
       else if String.eqb url "u2" then
         inr {| headers := [("Content-Length", "1")]; content := [x02] |}
       else if String.eqb url "u3" then
         inr {| headers := [("content-length", "2")]; content := [x03; x04] |}
       else inl ConnectionError;
     opml_parse := fun _ => inl (OtherException "not well-formed");
     int_of_str := decimal |}.

(** Only the first built-in URL answers, with the two episodes. *)
Definition env_missing_length : Env :=
  network (fun url => if String.eqb url first_url then Some feed_two else None).

(** The first built-in URL answers with the feed that has no title. *)
Definition env_untitled_first : Env :=
  network (fun url => if String.eqb url first_url then Some feed_untitled else None).

(** The first URL answers with an empty feed titled "Show", the second
    with the feed that has no title. *)
Definition env_untitled_second : Env :=
  network (fun url =>
    if String.eqb url first_url
    then Some {| feed_title := Some "Show"; entries := [] |}
    else if String.eqb url second_url then Some feed_untitled
    else None).

(** An episode of three full chunks. *)
Definition three_chunks : Response :=
  {| headers := [("Content-Length", "98304")];
     content := repeat x00 (3 * chunk_size) |}.

Definition env_three_chunks : Env :=
  {| feedparser_parse := fun _ => None;
     requests_get := fun _ => inr three_chunks;
     opml_parse := fun _ => inl (OtherException "not well-formed");
     int_of_str := decimal |}.

(** The podcast directory exists; the operator interrupts at the second
    chunk boundary. *)
Definition interrupted_world : World :=
  mkWorld (<[ ["podcasts"; "Show"] := Dir ]> base_fs) [] false [false; true].

(** The base directory holds a regular file named like the podcast. *)
Definition file_in_the_way : World :=
  mkWorld (<[ ["podcasts"; "Show"] := File [] ]> base_fs) [] false [].

(** The podcast directory exists and is empty. *)
Definition show_world : World :=
  mkWorld (<[ ["podcasts"; "Show"] := Dir ]> base_fs) [] false [].

(** Two episodes whose downloads succeed. *)
Definition good_episodes : PyDict.t string :=
  [("u2", "Two.mp3"); ("u3", "Other.mp3")].

(** The base directory exists and the cancellation event is set. *)
Definition cancelled_world : World := mkWorld base_fs [] true [].

(** Two episodes that share a file name. *)
Definition same_name_episodes : PyDict.t string :=
  [("u2", "Same.mp3"); ("u3", "Same.mp3")].

(** An OPML document with one group of two feeds. *)
Definition grouped_outline : list Outline :=
  [ MkOutline None [ MkOutline (Some "feed1") []; MkOutline (Some "feed2") [] ] ].

(** An OPML document whose group holds a nested group. *)
Definition nested_outline : list Outline :=
  [ MkOutline None
      [ MkOutline (Some "feed1") [];
        MkOutline None [ MkOutline (Some "feed2") [] ] ] ].

(** An OPML document that lists its feeds at the top level. *)
Definition flat_outline : list Outline :=
  [ MkOutline (Some "feed1") []; MkOutline (Some "feed2") [] ].

(** No feed answers; the OPML file parses to the given outlines. *)
Definition env_opml (outline : list Outline) : Env :=
  {| feedparser_parse := fun _ => None;
     requests_get := fun _ => inl ConnectionError;
     opml_parse := fun _ => inr outline;
     int_of_str := decimal |}.

End Inputs.

(** * Properties *)

(** Case analysis on a membership in a list that is written out: [tac]
    closes each case. *)
Ltac elem_of_cases H tac :=
  repeat (apply elem_of_cons in H as [H|H]; [tac|]);
  try (by apply elem_of_nil in H).

(** ** The sanitizer *)

Section sanitizer_facts.
Import Sanitizer.

Lemma replace_char_drop e t :
  replace_char e t = drop_chars (fun c => Ascii.eqb c e) t.
Proof. induction t as [|c t IH]; simpl; [done|]. by rewrite IH. Qed.

Lemma drop_chars_ext p q t :
  (∀ c, occurs c t = true → p c = q c) → drop_chars p t = drop_chars q t.
Proof.
  induction t as [|c t IH]; simpl; intros H; [done|].
  rewrite (H c) by (by rewrite Ascii.eqb_refl).
  rewrite IH; [done|]. intros d Hd. apply H. rewrite Hd. apply orb_true_r.
Qed.

Lemma drop_chars_twice p q t :
  drop_chars q (drop_chars p t) = drop_chars (fun c => p c || q c) t.
Proof.
  induction t as [|c t IH]; simpl; [done|].
  destruct (p c) eqn:Hp; simpl; [done|]. destruct (q c); by rewrite IH.
Qed.

Lemma drop_chars_none t : drop_chars (fun _ => false) t = t.
Proof. induction t as [|c t IH]; simpl; [done|]. by rewrite IH. Qed.

(** The inner loop removes [char] when it is blacklisted and does
    nothing otherwise. *)
Lemma scan_unaccepted_spec char t :
  scan_unaccepted char t = if is_unaccepted char then replace_char char t else t.
Proof.
  unfold scan_unaccepted, is_unaccepted.
  generalize unaccepted as l. intros l. revert t.
  induction l as [|e l IH]; intros t; simpl; [done|].
  rewrite IH. destruct (Ascii.eqb char e) eqn:He; simpl; [|done].
  apply Ascii.eqb_eq in He. subst e.
  destruct (existsb _ l); [|done].
  rewrite !replace_char_drop, drop_chars_twice. apply drop_chars_ext.
  intros c _. apply orb_diag.
Qed.

(** Invariant of the outer loop: after the characters [cs], the
    blacklisted ones among them are gone from the text. *)
Lemma format_text_loop cs p orig :
  foldl (fun text char => scan_unaccepted char text) (drop_chars p orig) cs
  = drop_chars (fun c => p c || (is_unaccepted c && existsb (Ascii.eqb c) cs)) orig.
Proof.
  revert p. induction cs as [|d cs IH]; intros p; simpl.
  - apply drop_chars_ext. intros c _. by rewrite andb_false_r, orb_false_r.
  - rewrite scan_unaccepted_spec.
    destruct (is_unaccepted d) eqn:Hd.
    + rewrite replace_char_drop, drop_chars_twice, IH.
      apply drop_chars_ext. intros c _.
      destruct (Ascii.eqb c d) eqn:Hcd; simpl.
      * apply Ascii.eqb_eq in Hcd. subst c. rewrite Hd. simpl.
        by rewrite orb_true_r.
      * by rewrite orb_false_r.
    + rewrite IH. apply drop_chars_ext. intros c _.
      destruct (Ascii.eqb c d) eqn:Hcd; simpl; [|done].
      apply Ascii.eqb_eq in Hcd. subst c. by rewrite Hd.
Qed.

Lemma occurs_existsb c t :
  existsb (Ascii.eqb c) (list_ascii_of_string t) = occurs c t.
Proof.
  induction t as [|d t IH]; simpl; [done|]. rewrite IH.
  by rewrite (Ascii.eqb_sym c d).
Qed.

(** The nested loops compute the one-pass filter. *)
Lemma format_text_strip text : format_text text = strip text.
Proof.
  unfold format_text, strip.
  rewrite <- (drop_chars_none text) at 1.
  rewrite format_text_loop. apply drop_chars_ext.
  intros c Hc. simpl. rewrite occurs_existsb, Hc. apply andb_true_r.
Qed.

Lemma occurs_drop_chars p c t :
  occurs c (drop_chars p t) = negb (p c) && occurs c t.
Proof.
  induction t as [|d t IH]; simpl; [by rewrite andb_false_r|].
  destruct (p d) eqn:Hd; simpl; rewrite IH;
    destruct (Ascii.eqb d c) eqn:E; simpl; try done;
    apply Ascii.eqb_eq in E; subst d; by rewrite Hd.
Qed.

Lemma length_strip t :
  String.length (strip t) + count_unaccepted t = String.length t.
Proof.
  unfold strip. induction t as [|c t IH]; simpl; [done|].
  destruct (is_unaccepted c); simpl; lia.
Qed.

Lemma is_unaccepted_elem_of c : is_unaccepted c = true ↔ c ∈ unaccepted.
Proof.
  unfold is_unaccepted. rewrite existsb_exists. split.
  - intros (x & Hx & E). apply Ascii.eqb_eq in E. subst. by apply list_elem_of_In.
  - intros H. exists c. split; [by apply list_elem_of_In | apply Ascii.eqb_refl].
Qed.

Lemma strip_clean t :
  (∀ c, c ∈ unaccepted → occurs c t = false) → strip t = t.
Proof.
  intros H. unfold strip. rewrite <- (drop_chars_none t) at 2.
  apply drop_chars_ext. intros c Hc.
  destruct (is_unaccepted c) eqn:Hu; [|done].
  apply is_unaccepted_elem_of in Hu. rewrite (H c Hu) in Hc. done.
Qed.

Example format_text_title :
  format_text "Ep. 12: What? [Part 1/2] - #tag" = "Ep. 12 What Part 12  tag".
Proof. vm_compute. reflexivity. Qed.

Example format_title_override :
  format_title (format_text "Fireside Podcast – HeadStuff") = "Fireside Podcast".
Proof. vm_compute. reflexivity. Qed.

(** C4: the output of [format_text] holds no blacklisted character, its
    length is the length of the input minus the number of occurrences
    of blacklisted characters in the input, and an input without
    blacklisted characters is returned unchanged. *)
Theorem format_text_removes_unaccepted (text : string) :
  (∀ c, c ∈ unaccepted → occurs c (format_text text) = false)
  ∧ (count_unaccepted text ≤ String.length text)%nat
  ∧ String.length (format_text text)
    = String.length text - count_unaccepted text
  ∧ ((∀ c, c ∈ unaccepted → occurs c text = false) → format_text text = text).
Proof.
  rewrite format_text_strip.
  pose proof (length_strip text) as Hlen.
  split; [|split; [lia|split; [lia|apply strip_clean]]].
  intros c Hc. unfold strip. rewrite occurs_drop_chars.
  apply is_unaccepted_elem_of in Hc. by rewrite Hc.
Qed.

(** The theorem at a title with blacklisted characters and at one
    without. *)
Lemma format_text_removes_unaccepted_witness :
  String.length (format_text "Ep. 12: What? [Part 1/2]")
    = String.length "Ep. 12: What? [Part 1/2]" - 5
  ∧ format_text "Hello World" = "Hello World".
Proof.
  split.
  - exact (proj1 (proj2 (proj2 (format_text_removes_unaccepted
                                  "Ep. 12: What? [Part 1/2]")))).
  - apply (proj2 (proj2 (proj2 (format_text_removes_unaccepted "Hello World")))).
    intros c Hc.
    elem_of_cases Hc ltac:(subst c; reflexivity).
Defined.

(** C9: [format_text] is idempotent. *)
Theorem format_text_idempotent (x : string) :
  format_text (format_text x) = format_text x.
Proof.
  rewrite !format_text_strip. unfold strip.
  rewrite drop_chars_twice. apply drop_chars_ext.
  intros c _. apply orb_diag.
Qed.

End sanitizer_facts.

(** ** Dictionaries *)

Section dict_facts.
Context {V : Type}.
Implicit Types (d l : PyDict.t V) (k : string) (v : V).

Lemma eqb_decide (a b : string) : String.eqb a b = bool_decide (a = b).
Proof.
  destruct (String.eqb_spec a b) as [E|E].
  - by rewrite bool_decide_eq_true_2.
  - by rewrite bool_decide_eq_false_2.
Qed.

Lemma get_setitem k k' v d :
  PyDict.get k (PyDict.setitem k' v d)
  = if decide (k' = k) then Some v else PyDict.get k d.
Proof.
  induction d as [|[k0 v0] d IH]; csimpl.
  - rewrite eqb_decide. by case_bool_decide; case_decide.
  - rewrite (eqb_decide k0 k'). case_bool_decide as E0; csimpl.
    + subst k0. rewrite !eqb_decide.
      case_decide; by case_bool_decide.
    + rewrite eqb_decide, IH.
      case_bool_decide; [|done]. case_decide; congruence.
Qed.

Lemma setitem_fresh k v d :
  k ∉ d.*1 → PyDict.setitem k v d = d ++ [(k, v)].
Proof.
  induction d as [|[k0 v0] d IH]; csimpl; intros Hk; [done|].
  apply not_elem_of_cons in Hk as [Hne Hk].
  rewrite eqb_decide. case_bool_decide; [congruence|]. by rewrite IH.
Qed.

Lemma setitem_keys k v d :
  (PyDict.setitem k v d).*1 = if decide (k ∈ d.*1) then d.*1 else d.*1 ++ [k].
Proof.
  induction d as [|[k0 v0] d IH]; csimpl.
  - done.
  - rewrite eqb_decide. case_bool_decide as E; csimpl.
    + subst k0. rewrite decide_True; [done|left].
    + rewrite IH. destruct (decide (k ∈ d.*1)) as [Hin|Hin].
      * rewrite decide_True; [done|by right].
      * rewrite decide_False; [done|].
        rewrite elem_of_cons. intros [?|?]; congruence.
Qed.

Lemma setitem_wf k v d : PyDict.wf d → PyDict.wf (PyDict.setitem k v d).
Proof.
  unfold PyDict.wf. intros Hd. rewrite setitem_keys.
  case_decide as Hin; [done|].
  apply NoDup_app. split_and!; [done| |apply NoDup_singleton].
  intros x Hx Hx'. apply list_elem_of_singleton in Hx'. by subst.
Qed.

Lemma update_wf d l : PyDict.wf d → PyDict.wf (PyDict.update d l).
Proof.
  unfold PyDict.update. revert d.
  induction l as [|[k v] l IH]; intros d Hd; csimpl; [done|].
  apply IH. by apply setitem_wf.
Qed.

Lemma update_app d l1 l2 :
  PyDict.update d (l1 ++ l2) = PyDict.update (PyDict.update d l1) l2.
Proof. unfold PyDict.update. apply foldl_app. Qed.

Lemma get_app k l1 l2 :
  PyDict.get k (l1 ++ l2)
  = match PyDict.get k l1 with Some v => Some v | None => PyDict.get k l2 end.
Proof.
  induction l1 as [|[k0 v0] l1 IH]; csimpl; [done|].
  by destruct (String.eqb k0 k).
Qed.


(** [get] finds the first pair with the key. *)
Lemma get_Some_first k v d :
  PyDict.get k d = Some v
  ↔ ∃ a b, d = a ++ (k, v) :: b ∧ k ∉ a.*1.
Proof.
  induction d as [|[k0 v0] d IH]; csimpl.
  - split; [done|]. intros (a & b & E & _). by destruct a.
  - rewrite eqb_decide. case_bool_decide as E0.
    + subst k0. split.
      * intros [= ->]. exists [], d. split; [done|apply not_elem_of_nil].
      * intros ([|[k1 v1] a] & b & E & Hk); csimpl in *.
        -- congruence.
        -- inversion E; subst. exfalso. apply Hk. left.
    + rewrite IH. split.
      * intros (a & b & -> & Hk). exists ((k0, v0) :: a), b.
        split; [done|]. csimpl. apply not_elem_of_cons. done.
      * intros ([|[k1 v1] a] & b & E & Hk); csimpl in *.
        -- congruence.
        -- inversion E; subst. exists a, b. split; [done|].
           by apply not_elem_of_cons in Hk as [_ ?].
Qed.

(** In a dict, a pair is an item exactly when [get] returns it. *)
Lemma wf_elem_of_get k v d :
  PyDict.wf d → ((k, v) ∈ PyDict.items d ↔ PyDict.get k d = Some v).
Proof.
  unfold PyDict.wf, PyDict.items. induction d as [|[k0 v0] d IH]; csimpl; intros Hd.
  - split; [by intros ?%elem_of_nil|done].
  - apply NoDup_cons in Hd as [Hk0 Hd].
    rewrite elem_of_cons, eqb_decide. case_bool_decide as E0.
    + subst k0. split.
      * intros [[= ->]|Hin]; [done|]. exfalso. apply Hk0.
        apply list_elem_of_fmap. by exists (k, v).
      * intros [= ->]. by left.
    + rewrite <- (IH Hd). split; [|by right].
      intros [[= ? ?]|?]; [congruence|done].
Qed.

(** After [update], a key holds the value of its last pair in [l], or
    what it held before when [l] does not mention it. *)
Lemma get_update k d l :
  PyDict.get k (PyDict.update d l)
  = match PyDict.get k (reverse l) with
    | Some v => Some v
    | None => PyDict.get k d
    end.
Proof.
  unfold PyDict.update. revert d.
  induction l as [|[k1 v1] l IH]; intros d; csimpl; [done|].
  rewrite IH, reverse_cons, get_app, get_setitem. csimpl.
  destruct (PyDict.get k (reverse l)); [done|].
  rewrite eqb_decide. case_decide; by case_bool_decide.
Qed.

(** The last pair with a key, seen from the front of the list. *)
Lemma get_reverse_last k v l :
  PyDict.get k (reverse l) = Some v
  ↔ ∃ before after, l = before ++ (k, v) :: after ∧ k ∉ after.*1.
Proof.
  rewrite get_Some_first. split.
  - intros (a & b & E & Hk). exists (reverse b), (reverse a). split.
    + rewrite <- (reverse_involutive l), E, reverse_app, reverse_cons.
      by rewrite <- app_assoc.
    + by rewrite fmap_reverse, elem_of_reverse.
  - intros (a & b & -> & Hk). exists (reverse b), (reverse a). split.
    + rewrite reverse_app, reverse_cons. by rewrite <- app_assoc.
    + by rewrite fmap_reverse, elem_of_reverse.
Qed.


End dict_facts.

(** ** The episode extractor *)

Section extractor_facts.
Import Feed.

(** The pair a link inserts, if it is an audio link. *)
Lemma extractor_inner_loop (episode : Entry) (ls : list Link) acc :
  foldl (fun episode_dict link =>
    if String.eqb (link_type link) "audio/mpeg" then
      let filename := Sanitizer.format_text (title episode) in
      let filename := filename +:+ ".mp3" in
      let url := href link in
      PyDict.update episode_dict [(url, filename)]
    else episode_dict) acc ls
  = PyDict.update acc
      (flat_map (fun link =>
         if String.eqb (link_type link) "audio/mpeg"
         then [(href link, Sanitizer.format_text (title episode) +:+ ".mp3")]
         else []) ls).
Proof.
  revert acc. induction ls as [|link ls IH]; intros acc; [done|].
  cbn [foldl flat_map]. rewrite IH, update_app.
  by destruct (String.eqb (link_type link) "audio/mpeg").
Qed.

Lemma extractor_outer_loop (es : list Entry) acc :
  foldl (fun episode_dict episode =>
    foldl (fun episode_dict link =>
      if String.eqb (link_type link) "audio/mpeg" then
        let filename := Sanitizer.format_text (title episode) in
        let filename := filename +:+ ".mp3" in
        let url := href link in
        PyDict.update episode_dict [(url, filename)]
      else episode_dict)
      episode_dict (links episode)) acc es
  = PyDict.update acc (audio_pairs {| feed_title := None; entries := es |}).
Proof.
  unfold audio_pairs. cbn [entries].
  revert acc. induction es as [|episode es IH]; intros acc; [done|].
  cbn [foldl flat_map]. by rewrite IH, extractor_inner_loop, update_app.
Qed.

(** The nested loops insert the audio pairs of the feed in feed order. *)
Lemma extractor_as_update (feed_dict : FeedParserDict) :
  generate_podcast_episode_urls feed_dict
  = PyDict.update [] (audio_pairs feed_dict).
Proof. apply extractor_outer_loop. Qed.

(** The audio pairs are those of the audio links of the entries. *)
Lemma elem_of_audio_pairs (feed_dict : FeedParserDict) url filename :
  (url, filename) ∈ audio_pairs feed_dict
  ↔ ∃ episode link,
      episode ∈ entries feed_dict ∧ link ∈ links episode
      ∧ link_type link = "audio/mpeg"
      ∧ url = href link
      ∧ filename = Sanitizer.format_text (title episode) +:+ ".mp3".
Proof.
  unfold audio_pairs. rewrite list_elem_of_In, in_flat_map. split.
  - intros (episode & He & Hin). apply in_flat_map in Hin as (link & Hl & Hin).
    exists episode, link. rewrite !list_elem_of_In.
    destruct (String.eqb_spec (link_type link) "audio/mpeg") as [E|E].
    + destruct Hin as [[= <- <-]|[]]. done.
    + destruct Hin.
  - intros (episode & link & He & Hl & Ht & -> & ->).
    exists episode. split; [by apply list_elem_of_In|].
    apply in_flat_map. exists link. split; [by apply list_elem_of_In|].
    rewrite Ht. by left.
Qed.

Example extractor_collision :
  generate_podcast_episode_urls Inputs.feed_collision = [("u", "b.mp3")].
Proof. vm_compute. reflexivity. Qed.

Example extractor_two_episodes :
  generate_podcast_episode_urls Inputs.feed_two
  = [("u1", "One.mp3"); ("u2", "Two.mp3")].
Proof. vm_compute. reflexivity. Qed.




End extractor_facts.

(** ** Reconciliation *)

Section reconcile_facts.

Lemma log_all_nil w : log_all [] w = w.
Proof. destruct w. unfold log_all. simpl. by rewrite app_nil_r. Qed.

(** The loop of lines 309-314 from an accumulator whose keys are not
    among those still to come. *)
Lemma notices_cons (warnings : bool) existing_files url filename items :
  notices warnings existing_files ((url, filename) :: items)
  = (if warnings && bool_decide (filename ∈ existing_files)
     then [Print (AlreadyDownloaded filename)] else [])
    ++ notices warnings existing_files items.
Proof.
  unfold notices. destruct warnings; [|done].
  rewrite filter_cons. simpl. case_bool_decide; case_decide; done.
Qed.

Lemma log_all_app es1 es2 w : log_all es2 (log_all es1 w) = log_all (es1 ++ es2) w.
Proof. unfold log_all. simpl. by rewrite <- app_assoc. Qed.

Lemma reconcile_loop (warnings : bool) existing_files (items acc : PyDict.t string) w :
  NoDup (items.*1) → (∀ k, k ∈ items.*1 → k ∉ acc.*1) →
  for_fold (fun new_episodes item =>
    if bool_decide (item.2 ∈ existing_files) then
      do_ (if warnings then console_print (AlreadyDownloaded item.2) else ret tt);
      ret new_episodes
    else ret (PyDict.setitem item.1 item.2 new_episodes)) acc items w
  = (log_all (notices warnings existing_files items) w,
     Return (acc ++ filter (fun item => item.2 ∉ existing_files) items)).
Proof.
  revert acc w. induction items as [|[url filename] items IH]; intros acc w Hnd Hfresh.
  - unfold notices. simpl. destruct warnings; simpl;
      by rewrite log_all_nil, app_nil_r.
  - csimpl in Hnd. apply NoDup_cons in Hnd as [Hurl Hnd].
    cbn [for_fold]. unfold bind at 1. cbn [fst snd].
    rewrite notices_cons, <- log_all_app.
    case_bool_decide as Hin.
    + rewrite filter_cons_False by (simpl; by intros Hn; apply Hn).
      rewrite andb_true_r.
      destruct warnings; unfold bind, console_print, ret; cbn [fst snd].
      * rewrite IH; [done|done|intros k Hk; apply Hfresh; by right].
      * rewrite log_all_nil.
        rewrite IH; [done|done|intros k Hk; apply Hfresh; by right].
    + rewrite andb_false_r, log_all_nil. unfold ret at 1.
      rewrite setitem_fresh by (apply Hfresh; left).
      rewrite IH; [|done|].
      * rewrite filter_cons_True by done. by rewrite <- app_assoc.
      * intros k Hk. rewrite fmap_app, elem_of_app. simpl.
        intros [?|?%list_elem_of_singleton]; [|by subst].
        eapply Hfresh; [by right|done].
Qed.

(** The loop on a dict, from the empty accumulator. *)
Lemma reconcile_run (warnings : bool) existing_files (episodes : PyDict.t string) w :
  PyDict.wf episodes →
  reconcile warnings existing_files episodes w
  = (log_all (notices warnings existing_files episodes) w,
     Return (filter (fun item => item.2 ∉ existing_files) episodes)).
Proof.
  intros Hwf. unfold reconcile, PyDict.items.
  rewrite reconcile_loop; [done|done|]. intros k _. apply not_elem_of_nil.
Qed.

(** C2: for every dict of episodes and every list of existing files,
    [new_episodes] holds a pair (url, filename) exactly when it is an
    item of [episodes] whose filename is not among the existing files
    (the items keep their order), and an "already downloaded" notice is
    printed for a filename exactly when warnings are on and an item
    with that filename was excluded. *)
Theorem reconcile_new_episodes (warnings : bool) existing_files
    (episodes : PyDict.t string) w :
  PyDict.wf episodes →
  ∃ new_episodes,
    reconcile warnings existing_files episodes w
    = (log_all (notices warnings existing_files episodes) w, Return new_episodes)
    ∧ new_episodes = filter (fun item => item.2 ∉ existing_files) episodes
    ∧ (∀ url filename,
         (url, filename) ∈ PyDict.items new_episodes
         ↔ (url, filename) ∈ PyDict.items episodes ∧ filename ∉ existing_files)
    ∧ (∀ filename,
         Print (AlreadyDownloaded filename)
           ∈ notices warnings existing_files episodes
         ↔ warnings = true ∧ filename ∈ existing_files
           ∧ ∃ url, (url, filename) ∈ PyDict.items episodes).
Proof.
  intros Hwf. eexists. split_and!; [|reflexivity| |].
  - unfold reconcile, PyDict.items. rewrite reconcile_loop; [done|done|].
    intros k _. apply not_elem_of_nil.
  - intros url filename. unfold PyDict.items.
    rewrite list_elem_of_filter. simpl. tauto.
  - intros filename. unfold notices, PyDict.items. destruct warnings.
    + rewrite list_elem_of_fmap. split.
      * intros ([url f] & [= ->] & [Hin Hel]%list_elem_of_filter).
        simpl in *. eauto.
      * intros (_ & Hin & url & Hel). exists (url, filename).
        split; [done|]. by apply list_elem_of_filter.
    + split; [by intros ?%elem_of_nil|by intros [? _]].
Qed.

(** The scenario of the specification: one file on disk, two episodes,
    warnings on. *)
Lemma reconcile_new_episodes_witness :
  reconcile true ["A.mp3"] Inputs.two_episodes Inputs.empty_world
  = (mkWorld ∅ [Print (AlreadyDownloaded "A.mp3")] false [],
     Return [("url2", "B.mp3")]).
Proof.
  assert (Hwf : PyDict.wf Inputs.two_episodes).
  { unfold PyDict.wf. apply (bool_decide_unpack _). vm_compute. exact I. }
  destruct (reconcile_new_episodes true ["A.mp3"] Inputs.two_episodes
              Inputs.empty_world Hwf) as (new_episodes & Hrun & -> & _).
  rewrite Hrun. reflexivity.
Defined.

End reconcile_facts.

(** ** The file system and the directory reconciler *)

Section fs_facts.

Lemma child_name_Some q k n : FS.child_name q k = Some n ↔ k = q ++ [n].
Proof.
  revert k. induction q as [|c q IH]; intros k; simpl.
  - destruct k as [|m [|? ?]]; split; intros H; try done; congruence.
  - destruct k as [|c' k]; [split; [done|by destruct q]|].
    rewrite eqb_decide. case_bool_decide as E.
    + subst c'. rewrite IH. split; congruence.
    + split; [done|congruence].
Qed.

(** [listdir] gives the names of all entries, whatever their kind. *)
Lemma elem_of_listdir (m : gmap path node) q n :
  n ∈ FS.listdir m q ↔ is_Some (m !! (q ++ [n])).
Proof.
  unfold FS.listdir. rewrite list_elem_of_omap. split.
  - intros ([k nd] & Hin & Hk). simpl in Hk.
    apply child_name_Some in Hk. subst k.
    apply elem_of_map_to_list in Hin. by exists nd.
  - intros [nd Hnd]. exists (q ++ [n], nd). split.
    + by apply elem_of_map_to_list.
    + by apply child_name_Some.
Qed.

Lemma name_snoc p n : FS.name (p ++ [n]) = n.
Proof. unfold FS.name. apply last_last. Qed.

Lemma map_files_loop (children : list path) (acc : list string) :
  foldl (fun file_list child => file_list ++ [FS.name child]) acc children
  = acc ++ map FS.name children.
Proof.
  revert acc. induction children as [|c cs IH]; intros acc; simpl.
  - by rewrite app_nil_r.
  - by rewrite IH, <- app_assoc.
Qed.

(** On a directory, [map_files] returns what [listdir] gives and leaves
    the world alone. *)
Lemma map_files_listdir w d q :
  FS.resolve (fs w) d = inr q → FS.node_at (fs w) q = Some Dir →
  map_files d w = (w, Return (FS.listdir (fs w) q)).
Proof.
  intros Hres Hdir. unfold map_files, bind, FS.iterdir, ret.
  rewrite Hres, Hdir. rewrite map_files_loop. simpl.
  rewrite map_map. f_equal. f_equal.
  induction (FS.listdir (fs w) q) as [|n l IH]; simpl; [done|].
  by rewrite name_snoc, IH.
Qed.

(** C10: on a directory, [map_files] returns the names of all immediate
    children, subdirectories included; so an episode whose derived
    filename is the name of a subdirectory is left out of
    [new_episodes], as if it were downloaded. *)
Theorem map_files_counts_subdirectories (warnings : bool) w d q n
    (episodes : PyDict.t string) :
  FS.resolve (fs w) d = inr q → FS.node_at (fs w) q = Some Dir →
  fs w !! (q ++ [n]) = Some Dir → PyDict.wf episodes →
  ∃ names new_episodes w',
    map_files d w = (w, Return names)
    ∧ (∀ m, m ∈ names ↔ is_Some (fs w !! (q ++ [m])))
    ∧ n ∈ names
    ∧ reconcile warnings names episodes w = (w', Return new_episodes)
    ∧ (∀ url, (url, n) ∉ PyDict.items new_episodes).
Proof.
  intros Hres Hdir Hsub Hwf.
  exists (FS.listdir (fs w) q),
         (filter (fun item => item.2 ∉ FS.listdir (fs w) q) episodes),
         (log_all (notices warnings (FS.listdir (fs w) q) episodes) w).
  assert (Hn : n ∈ FS.listdir (fs w) q) by (apply elem_of_listdir; eauto).
  split_and!; [by apply map_files_listdir| |done|by apply reconcile_run|].
  - intros m. apply elem_of_listdir.
  - unfold PyDict.items. intros url [Hout _]%list_elem_of_filter. done.
Qed.

(** The theorem in a podcast directory that holds a directory named
    [B.mp3]: the episode of that name is not downloaded. *)
Lemma map_files_counts_subdirectories_witness :
  ∃ names new_episodes w',
    map_files ["podcasts"; "Show"] Inputs.populated_world
      = (Inputs.populated_world, Return names)
    ∧ (∀ m, m ∈ names
            ↔ is_Some (fs Inputs.populated_world !! (["podcasts"; "Show"] ++ [m])))
    ∧ "B.mp3" ∈ names
    ∧ reconcile false names Inputs.two_episodes Inputs.populated_world
      = (w', Return new_episodes)
    ∧ (∀ url, (url, "B.mp3") ∉ PyDict.items new_episodes).
Proof.
  apply (map_files_counts_subdirectories false Inputs.populated_world
           ["podcasts"; "Show"] ["podcasts"; "Show"] "B.mp3" Inputs.two_episodes).
  - vm_compute. reflexivity.
  - vm_compute. reflexivity.
  - vm_compute. reflexivity.
  - unfold PyDict.wf. apply (bool_decide_unpack _). vm_compute. exact I.
Defined.

(** When the directory is absent and its creation fails with one of the
    two errors [make_directory] handles, the failure is printed and the
    listing raises the same error. *)
Lemma ensure_and_list_failed_creation w p e :
  FS.is_dir (fs w) p = false →
  FS.mkdir p w = (w, Raise e) →
  e = NotADirectoryError ∨ e = FileNotFoundError →
  ensure_and_list p w
  = (log (Print (match e with
                 | NotADirectoryError => DirectoryNameInvalid p e
                 | _ => ParentNotFound p
                 end)) w,
     Raise e).
Proof.
  intros Hdir Hmk He.
  unfold ensure_and_list, bind, check_directory, make_directory, try_except.
  rewrite Hdir, Hmk.
  assert (Hres : FS.resolve (fs w) p = inl e).
  { unfold FS.mkdir in Hmk. destruct (FS.resolve (fs w) p) as [e'|q].
    - congruence.
    - destruct (FS.node_at (fs w) q); inversion Hmk; subst;
        by destruct He. }
  destruct He as [-> | ->]; unfold console_print, map_files, bind, FS.iterdir;
    simpl; by rewrite Hres.
Qed.

End fs_facts.

(** ** The downloader *)

Section download_facts.
Variable env : Env.

Lemma chunk_size_pos : 0 < chunk_size.
Proof. apply Nat.ltb_lt. vm_compute. reflexivity. Qed.

(** The slices of a body put together give the body back. *)
Lemma concat_iter_slices fuel n (body : list byte) :
  0 < n → length body ≤ fuel → concat (iter_slices fuel n body) = body.
Proof.
  intros Hn. revert body. induction fuel as [|fuel IH]; intros body Hlen.
  - destruct body; [done|]. simpl in Hlen. lia.
  - destruct body as [|b body]; [done|].
    cbn [iter_slices concat]. rewrite IH.
    + apply take_drop.
    + rewrite length_drop. simpl in *. lia.
Qed.

Lemma concat_iter_content response :
  concat (iter_content chunk_size response) = content response.
Proof. apply concat_iter_slices; [apply chunk_size_pos|done]. Qed.

Lemma written_after_cancel_app tr1 tr2 :
  written_after_cancel (tr1 ++ tr2)
  = written_after_cancel tr1 + written_after_cancel tr2.
Proof.
  induction tr1 as [|[m|u|t size [|]|] tr1 IH]; simpl; rewrite ?IH; lia.
Qed.

(** The slices after the first [k] are the body after [k] full chunks. *)
Lemma concat_drop_iter_slices fuel n k (body : list byte) :
  0 < n → length body ≤ fuel →
  concat (drop k (iter_slices fuel n body)) = drop (k * n) body.
Proof.
  intros Hn. revert k body. induction fuel as [|fuel IH]; intros k body Hlen.
  - destruct body; [|simpl in Hlen; lia].
    cbn [iter_slices]. by rewrite !drop_nil.
  - destruct body as [|b body]; [cbn [iter_slices]; by rewrite !drop_nil|].
    destruct k as [|k].
    + rewrite !drop_0. by apply concat_iter_slices.
    + cbn [iter_slices]. rewrite skipn_cons, IH, drop_drop.
      * f_equal.
      * rewrite length_drop. simpl in *. lia.
Qed.

(** One turn of the loop never raises. *)
Lemma turn_returns f chunk w :
  (do_ poll_interrupt; FS.write f chunk) w = (after_chunk f chunk w, Return tt).
Proof.
  unfold after_chunk. destruct w as [m tr ev [|[|] irq]]; reflexivity.
Qed.

Lemma after_chunk_file f chunk w c0 :
  fs w !! f = Some (File c0) →
  fs (after_chunk f chunk w) !! f = Some (File (c0 ++ chunk)).
Proof.
  intros Hf. destruct w as [m tr ev [|[|] irq]]; simpl in *;
    by rewrite lookup_alter_eq, Hf.
Qed.

(** With the event set, the chunk is written all the same. *)
Lemma after_chunk_cancelled f chunk w :
  done_event w = true →
  done_event (after_chunk f chunk w) = true
  ∧ written_after_cancel (trace (after_chunk f chunk w))
    = written_after_cancel (trace w) + length chunk.
Proof.
  destruct w as [m tr ev [|[|] irq]]; simpl; intros ->;
    rewrite !written_after_cancel_app; simpl; split; (done || lia).
Qed.

(** An interrupt at this boundary sets the event before the write. *)
Lemma after_chunk_interrupt f chunk w rest :
  interrupts w = true :: rest →
  done_event (after_chunk f chunk w) = true
  ∧ written_after_cancel (trace (after_chunk f chunk w))
    = written_after_cancel (trace w) + length chunk.
Proof.
  destruct w as [m tr ev irq]; simpl; intros ->. simpl.
  rewrite !written_after_cancel_app; simpl; split; (done || lia).
Qed.

(** Without an interrupt and without the event, the write does not
    count. *)
Lemma after_chunk_quiet f chunk w rest :
  done_event w = false → interrupts w = false :: rest →
  done_event (after_chunk f chunk w) = false
  ∧ interrupts (after_chunk f chunk w) = rest
  ∧ written_after_cancel (trace (after_chunk f chunk w))
    = written_after_cancel (trace w).
Proof.
  destruct w as [m tr ev irq]; simpl; intros -> ->. simpl.
  rewrite !written_after_cancel_app; simpl; split_and!; (done || lia).
Qed.

(** The loop from any state in which the file is open: every remaining
    chunk is written, and all of them count as written after the
    cancellation when the event is set. *)
Lemma chunks_written f chunks w c0 :
  fs w !! f = Some (File c0) →
  ∃ w',
    for_each (fun chunk => do_ poll_interrupt; FS.write f chunk) chunks w
    = (w', Return tt)
    ∧ fs w' !! f = Some (File (c0 ++ concat chunks))
    ∧ (done_event w = true →
         written_after_cancel (trace w')
           = written_after_cancel (trace w) + length (concat chunks)).
Proof.
  revert w c0. induction chunks as [|chunk chunks IH]; intros w c0 Hf.
  - exists w. simpl. rewrite app_nil_r. split_and!; [done|done|]. intros _. lia.
  - cbn [for_each]. unfold bind at 1. rewrite turn_returns.
    destruct (IH _ _ (after_chunk_file f chunk w c0 Hf)) as (w2 & Hrun & Hfile & Hev).
    exists w2. split_and!; [done|by rewrite Hfile, <- app_assoc|].
    intros Hset. destruct (after_chunk_cancelled f chunk w Hset) as [Hset' Hbytes].
    rewrite (Hev Hset'), Hbytes. simpl. rewrite length_app. lia.
Qed.

(** The loop when the interrupt comes at the chunk boundary [k]: the
    chunks from the one at [k] on are all written after the event was
    set. *)
Lemma chunks_written_after_interrupt f chunks w c0 k rest :
  fs w !! f = Some (File c0) →
  done_event w = false →
  interrupts w = replicate k false ++ true :: rest →
  ∃ w',
    for_each (fun chunk => do_ poll_interrupt; FS.write f chunk) chunks w
    = (w', Return tt)
    ∧ written_after_cancel (trace w')
      = written_after_cancel (trace w) + length (concat (drop k chunks)).
Proof.
  revert chunks w c0. induction k as [|k IH]; intros chunks w c0 Hf Hev Hirq;
    (destruct chunks as [|chunk chunks];
      [exists w; rewrite drop_nil; simpl; split; [done|lia]|]);
    cbn [for_each]; unfold bind at 1; rewrite turn_returns.
  - destruct (after_chunk_interrupt f chunk w rest Hirq) as [Hset Hbytes].
    destruct (chunks_written f chunks _ _ (after_chunk_file f chunk w c0 Hf))
      as (w2 & Hrun & _ & Hrest).
    exists w2. split; [done|].
    rewrite (Hrest Hset), Hbytes, drop_0. simpl. rewrite length_app. lia.
  - destruct (after_chunk_quiet f chunk w _ Hev Hirq) as (Hev' & Hirq' & Hbytes).
    destruct (IH chunks _ _ (after_chunk_file f chunk w c0 Hf) Hev' Hirq')
      as (w2 & Hrun & Hrest).
    exists w2. split; [done|]. by rewrite Hrest, Hbytes, skipn_cons.
Qed.

(** C1: [download_episode] never reads the cancellation event.  For a
    response with a readable Content-Length and a path that can be
    opened, the call returns with the whole body in the file, whatever
    the event and the interrupts are.  When the event is set as the call
    starts, every byte of the body is written after the cancellation;
    when the interrupt comes at the chunk boundary [k], all of the body
    but its first [k] chunks is. *)
Theorem download_episode_ignores_done_event w download_path filename url
    response v size q :
  requests_get env url = inr response →
  header "Content-Length" (headers response) = Some v →
  int_of_str env v = Some size →
  FS.resolve (fs w) download_path = inr q →
  FS.node_at (fs w) q ≠ Some Dir →
  ∃ w',
    download_episode env download_path filename url w = (w', Return tt)
    ∧ fs w' !! q = Some (File (content response))
    ∧ (done_event w = true →
         written_after_cancel (trace w')
           = written_after_cancel (trace w) + length (content response))
    ∧ (∀ k rest,
         done_event w = false →
         interrupts w = replicate k false ++ true :: rest →
         written_after_cancel (trace w')
           = written_after_cancel (trace w)
             + (length (content response) - k * chunk_size)).
Proof.
  intros Hget Hhdr Hint Hres Hnode.
  unfold download_episode.
  unfold bind at 1. unfold console_print at 1.
  unfold bind at 1. rewrite Hget.
  unfold bind at 1. rewrite Hhdr. unfold ret at 1.
  unfold bind at 1. rewrite Hint. unfold ret at 1.
  unfold bind at 1. unfold FS.open_wb.
  set (w0 := log (Get url) (log (Print (NewEpisode filename)) w)).
  change (fs w0) with (fs w). rewrite Hres.
  assert (Hq : q ≠ []) by (intros ->; by apply Hnode).
  set (w1 := set_fs (insert q (File [])) w0).
  assert (Hopen : (match FS.node_at (fs w) q with
                   | Some Dir => (w0, Raise IsADirectoryError)
                   | _ => (w1, Return q)
                   end) = (w1, Return q)).
  { destruct (FS.node_at (fs w) q) as [[c|]|]; congruence. }
  rewrite Hopen.
  assert (Hf : fs w1 !! q = Some (File [])) by apply lookup_insert_eq.
  assert (Htr : written_after_cancel (trace w1) = written_after_cancel (trace w)).
  { unfold w1, w0, set_fs, log. simpl.
    rewrite !written_after_cancel_app. simpl. lia. }
  destruct (chunks_written q (iter_content chunk_size response) w1 [] Hf)
    as (w2 & Hrun & Hfile & Hev).
  exists w2. rewrite concat_iter_content in Hfile, Hev.
  split_and!; [done|done| |].
  - intros Hset. by rewrite (Hev Hset), Htr.
  - intros k rest Hunset Hirq.
    destruct (chunks_written_after_interrupt q (iter_content chunk_size response)
                w1 [] k rest Hf Hunset Hirq) as (w2' & Hrun' & Hbytes).
    rewrite Hrun in Hrun'. injection Hrun' as <-.
    rewrite Hbytes, Htr. unfold iter_content.
    rewrite concat_drop_iter_slices, length_drop;
      [done|apply chunk_size_pos|done].
Qed.

(** C6, amended: a response without a Content-Length header makes
    [download_episode] raise [KeyError] once the notice is printed and
    the request made, before the output file is opened; nothing catches
    it, so the episodes after it and the feeds after this one are not
    processed and [main] ends with that [KeyError]. *)
Theorem missing_content_length_aborts args w0 w0' w w1 w2 w3 w4
    finished podcast others podcast_directory_name feed feed_name
    podcast_absolute_path existing_files before url filename rest response :
  podcast_absolute_path
    = FS.joinpath (directory args)
        (Sanitizer.format_title (Sanitizer.format_text feed_name)) →
  w4 = log (Get url) (log (Print (NewEpisode filename)) w3) →
  FS.is_dir (fs w0) (directory args) = true →
  resolve_sources env args w0
    = (w0', Return (Some (finished ++ podcast :: others))) →
  for_fold (process_podcast env (directory args) (warnings args))
           None finished w0'
    = (w, Return podcast_directory_name) →
  parse_rss_url env podcast = Some feed →
  Feed.feed_title feed = Some feed_name →
  ensure_and_list podcast_absolute_path w = (w1, Return existing_files) →
  reconcile (warnings args) existing_files
            (Feed.generate_podcast_episode_urls feed) w1
    = (w2, Return (before ++ (url, filename) :: rest)) →
  download_new_episodes env podcast_absolute_path before w2 = (w3, Return tt) →
  requests_get env url = inr response →
  header "Content-Length" (headers response) = None →
  download_episode env (FS.joinpath podcast_absolute_path filename) filename url w3
    = (w4, Raise KeyError)
  ∧ fs w4 = fs w3
  ∧ main env args w0 = (w4, Raise KeyError).
Proof.
  intros Hpath -> Hdir Hsrc Hdone Hfeed Htitle Hlist Hrec Hbefore Hget Hhdr.
  set (dir := podcast_absolute_path) in *.
  set (w4 := log (Get url) (log (Print (NewEpisode filename)) w3)).
  assert (Hdl : download_episode env (FS.joinpath dir filename) filename url w3
                = (w4, Raise KeyError)).
  { unfold download_episode, bind, console_print. by rewrite Hget, Hhdr. }
  split_and!; [done|done|].
  assert (Hloop : download_new_episodes env dir (before ++ (url, filename) :: rest) w2
                  = (w4, Raise KeyError)).
  { unfold download_new_episodes, PyDict.items in *.
    clear Hrec. revert w2 Hbefore. induction before as [|item before IH]; intros w2 Hbefore.
    - simpl in Hbefore. injection Hbefore as ->.
      cbn [app for_each]. unfold bind at 1. cbn [fst snd]. by rewrite Hdl.
    - cbn [app for_each] in *. unfold bind at 1. unfold bind at 1 in Hbefore.
      destruct (download_episode env (FS.joinpath dir item.2) item.2 item.1 w2)
        as [w2' [[]|e]]; [|discriminate].
      by apply IH. }
  assert (Hpod : process_podcast env (directory args) (warnings args)
                   podcast_directory_name podcast w = (w4, Raise KeyError)).
  { unfold process_podcast. rewrite Hfeed, Htitle.
    unfold bind at 1. unfold try_except, ret at 1. cbn [fst snd].
    unfold bind at 1. unfold ret at 1.
    unfold bind at 1. rewrite <- Hpath, Hlist.
    unfold bind at 1. rewrite Hrec.
    unfold bind at 1. by rewrite Hloop. }
  assert (Hall : ∀ s l w', for_fold (process_podcast env (directory args) (warnings args))
                             s l w' = (w, Return podcast_directory_name) →
            for_fold (process_podcast env (directory args) (warnings args))
              s (l ++ podcast :: others) w' = (w4, Raise KeyError)).
  { intros s l. revert s. induction l as [|x l IH]; intros s w' Hl.
    - simpl in Hl. injection Hl as -> ->.
      cbn [app for_fold]. unfold bind at 1. by rewrite Hpod.
    - cbn [app for_fold] in *. unfold bind at 1. unfold bind at 1 in Hl.
      destruct (process_podcast env (directory args) (warnings args) s x w')
        as [w'' [s'|e]]; [|discriminate].
      by apply IH. }
  unfold main. unfold bind at 1. unfold check_directory. rewrite Hdir.
  unfold bind at 1. unfold ret at 1.
  unfold bind at 1. rewrite Hsrc.
  unfold bind at 1. by rewrite (Hall _ _ _ Hdone).
Qed.

End download_facts.

(** The theorem for an episode of three chunks when the operator
    interrupts after the first chunk: the two chunks that remain are
    written all the same. *)
Lemma download_episode_ignores_done_event_witness :
  ∃ w',
    download_episode Inputs.env_three_chunks ["podcasts"; "Show"; "One.mp3"]
      "One.mp3" "u1" Inputs.interrupted_world = (w', Return tt)
    ∧ fs w' !! ["podcasts"; "Show"; "One.mp3"]
      = Some (File (content Inputs.three_chunks))
    ∧ written_after_cancel (trace w') = 2 * chunk_size
    ∧ chunk_size < written_after_cancel (trace w').
Proof.
  destruct (download_episode_ignores_done_event Inputs.env_three_chunks
              Inputs.interrupted_world ["podcasts"; "Show"; "One.mp3"] "One.mp3" "u1"
              Inputs.three_chunks "98304" 98304%Z ["podcasts"; "Show"; "One.mp3"])
    as (w' & Hrun & Hfile & _ & Hirq).
  - reflexivity.
  - reflexivity.
  - vm_compute. reflexivity.
  - vm_compute. reflexivity.
  - vm_compute. discriminate.
  - exists w'. specialize (Hirq 1 [] eq_refl eq_refl).
    assert (Hlen : length (content Inputs.three_chunks) = 3 * chunk_size)
      by apply repeat_length.
    rewrite Hlen in Hirq.
    change (trace Inputs.interrupted_world) with (@nil event) in Hirq.
    cbn [written_after_cancel] in Hirq.
    pose proof chunk_size_pos. split_and!; [done|done|lia|lia].
Defined.

(** ** The orchestrator *)

Section orchestrator_facts.
Variable env : Env.

Lemma for_fold_app {A S} (body : S → A → M S) s l1 l2 w :
  for_fold body s (l1 ++ l2) w
  = match for_fold body s l1 w with
    | (w', Return s') => for_fold body s' l2 w'
    | (w', Raise e) => (w', Raise e)
    end.
Proof.
  revert s w. induction l1 as [|x l1 IH]; intros s w; [done|].
  cbn [app for_fold]. unfold bind.
  destruct (body s x w) as [w' [s'|e]]; [apply IH|done].
Qed.

(** C5: when the podcast directory is absent and its creation fails with
    one of the two errors [make_directory] handles, the creation was
    tried first and the failure is printed, but the listing that follows
    raises the same error; nothing catches it, so the loop over the
    feeds ends there, before any download. *)
Theorem listing_raises_after_failed_creation parent_directory (warnings : bool)
    podcast_directory_name podcast others feed feed_name
    podcast_absolute_path w e :
  parse_rss_url env podcast = Some feed →
  Feed.feed_title feed = Some feed_name →
  podcast_absolute_path
    = FS.joinpath parent_directory
        (Sanitizer.format_title (Sanitizer.format_text feed_name)) →
  FS.is_dir (fs w) podcast_absolute_path = false →
  FS.mkdir podcast_absolute_path w = (w, Raise e) →
  e = NotADirectoryError ∨ e = FileNotFoundError →
  ensure_and_list podcast_absolute_path w
  = (log (Print (match e with
                 | NotADirectoryError => DirectoryNameInvalid podcast_absolute_path e
                 | _ => ParentNotFound podcast_absolute_path
                 end)) w,
     Raise e)
  ∧ for_fold (process_podcast env parent_directory warnings)
             podcast_directory_name (podcast :: others) w
    = (log (Print (match e with
                   | NotADirectoryError => DirectoryNameInvalid podcast_absolute_path e
                   | _ => ParentNotFound podcast_absolute_path
                   end)) w,
       Raise e).
Proof.
  intros Hfeed Htitle Hpath Hdir Hmk He.
  pose proof (ensure_and_list_failed_creation w podcast_absolute_path e Hdir Hmk He)
    as Hlist.
  split; [done|].
  cbn [for_fold]. unfold bind at 1.
  unfold process_podcast. rewrite Hfeed, Htitle.
  unfold bind at 1. unfold try_except, ret at 1. cbn [fst snd].
  unfold bind at 1. unfold ret at 1.
  unfold bind at 1. by rewrite <- Hpath, Hlist.
Qed.


(** C7: a feed without a title is reported, but the loop body goes on;
    when no earlier feed has bound [podcast_directory_name], the read of
    that variable raises [UnboundLocalError], which ends [main]: the
    feeds after it are not processed. *)
Theorem missing_title_raises_UnboundLocalError args w0 w0' w
    finished podcast others feed :
  FS.is_dir (fs w0) (directory args) = true →
  resolve_sources env args w0
    = (w0', Return (Some (finished ++ podcast :: others))) →
  for_fold (process_podcast env (directory args) (warnings args))
           None finished w0' = (w, Return None) →
  parse_rss_url env podcast = Some feed →
  Feed.feed_title feed = None →
  main env args w0
  = (log (Print (FeedKeyError podcast)) w, Raise UnboundLocalError).
Proof.
  intros Hdir Hsrc Hdone Hfeed Htitle.
  unfold main. unfold bind at 1. unfold check_directory. rewrite Hdir.
  unfold bind at 1. unfold ret at 1.
  unfold bind at 1. rewrite Hsrc.
  unfold bind at 1. rewrite for_fold_app, Hdone.
  cbn [for_fold]. unfold bind at 1.
  unfold process_podcast. rewrite Hfeed, Htitle.
  unfold bind at 1. unfold try_except, raise at 1.
  unfold bind at 1. unfold console_print at 1. unfold ret at 1.
  unfold bind at 1. unfold raise at 1. done.
Qed.

(** C8: when the OPML file does not parse, the failure is printed,
    [parse_opml] returns [None], and the loop over [None] raises
    [TypeError], which ends [main]. *)
Theorem failed_import_raises_TypeError args w file e :
  FS.is_dir (fs w) (directory args) = true →
  import_file args = Some file →
  opml_parse env file = inl e →
  is_Exception e = true →
  main env args w = (log (Print (OpmlException e)) w, Raise TypeError).
Proof.
  intros Hdir Himport Hparse Hexc.
  unfold main. unfold bind at 1. unfold check_directory. rewrite Hdir.
  unfold bind at 1. unfold ret at 1.
  unfold bind at 1. unfold resolve_sources, parse_opml.
  rewrite Himport, Hparse, Hexc. done.
Qed.

End orchestrator_facts.

(** The theorem where the base directory is gone when the first feed is
    processed: the listing raises [FileNotFoundError]. *)
Lemma listing_raises_after_failed_creation_witness :
  ensure_and_list ["podcasts"; "Show"] Inputs.empty_world
  = (log (Print (ParentNotFound ["podcasts"; "Show"])) Inputs.empty_world,
     Raise FileNotFoundError)
  ∧ for_fold (process_podcast Inputs.env_missing_length ["podcasts"] false)
             None default_podcasts Inputs.empty_world
    = (log (Print (ParentNotFound ["podcasts"; "Show"])) Inputs.empty_world,
       Raise FileNotFoundError).
Proof.
  apply (listing_raises_after_failed_creation Inputs.env_missing_length
           ["podcasts"] false None Inputs.first_url (tail default_podcasts)
           Inputs.feed_two "Show" ["podcasts"; "Show"] Inputs.empty_world
           FileNotFoundError).
  - vm_compute. reflexivity.
  - reflexivity.
  - vm_compute. reflexivity.
  - vm_compute. reflexivity.
  - vm_compute. reflexivity.
  - right. reflexivity.
Defined.

(** The theorem on the built-in list when the first feed has no title. *)
Lemma missing_title_raises_UnboundLocalError_witness :
  main Inputs.env_untitled_first Inputs.args_default Inputs.base_world
  = (log (Print (FeedKeyError Inputs.first_url)) Inputs.base_world,
     Raise UnboundLocalError).
Proof.
  apply (missing_title_raises_UnboundLocalError Inputs.env_untitled_first
           Inputs.args_default Inputs.base_world Inputs.base_world Inputs.base_world
           [] Inputs.first_url (tail default_podcasts) Inputs.feed_untitled).
  - vm_compute. reflexivity.
  - reflexivity.
  - reflexivity.
  - vm_compute. reflexivity.
  - reflexivity.
Defined.

(** A feed without a title that comes second is not skipped either: its
    episode is downloaded into the directory of the feed before it. *)
Example missing_title_reuses_previous_directory :
  let run := main Inputs.env_untitled_second Inputs.args_default Inputs.base_world in
  run.2 = Return tt
  ∧ fs run.1 !! ["podcasts"; "Show"; "Other.mp3"] = Some (File [x03; x04])
  ∧ take 4 (trace run.1)
    = [ Print (FeedKeyError Inputs.second_url);
        Print (NewEpisode "Other.mp3"); Get "u3";
        Write ["podcasts"; "Show"; "Other.mp3"] 2 false ].
Proof. vm_compute. split_and!; reflexivity. Qed.

(** The theorem on an OPML file that does not parse. *)
Lemma failed_import_raises_TypeError_witness :
  main Inputs.env_missing_length Inputs.args_import Inputs.base_world
  = (log (Print (OpmlException (OtherException "not well-formed"))) Inputs.base_world,
     Raise TypeError).
Proof.
  apply (failed_import_raises_TypeError Inputs.env_missing_length
           Inputs.args_import Inputs.base_world ["feeds.opml"]).
  - vm_compute. reflexivity.
  - reflexivity.
  - reflexivity.
  - reflexivity.
Defined.

(** The theorem on the built-in list when the first episode of the first
    feed comes without a Content-Length header. *)
Lemma missing_content_length_aborts_witness :
  main Inputs.env_missing_length Inputs.args_default Inputs.base_world
  = (mkWorld (<[ ["podcasts"; "Show"] := Dir ]> Inputs.base_fs)
             [Print (NewEpisode "One.mp3"); Get "u1"] false [],
     Raise KeyError).
Proof.
  pose (w1 := mkWorld (<[ ["podcasts"; "Show"] := Dir ]> Inputs.base_fs) [] false []).
  apply (missing_content_length_aborts Inputs.env_missing_length
           Inputs.args_default Inputs.base_world Inputs.base_world Inputs.base_world
           w1 w1 w1 _
           [] Inputs.first_url (tail default_podcasts) None Inputs.feed_two "Show"
           ["podcasts"; "Show"] [] [] "u1" "One.mp3" [("u2", "Two.mp3")]
           {| headers := [("Content-Type", "audio/mpeg")]; content := [x01] |}).
  - vm_compute. reflexivity.
  - vm_compute. reflexivity.
  - vm_compute. reflexivity.
  - reflexivity.
  - reflexivity.
  - vm_compute. reflexivity.
  - reflexivity.
  - vm_compute. reflexivity.
  - vm_compute. reflexivity.
  - reflexivity.
  - reflexivity.
  - vm_compute. reflexivity.
Defined.

(** C6 as stated fails: on the built-in list, when the first episode of
    the first feed comes without a Content-Length header, the run ends
    with an uncaught [KeyError], and the second episode is never
    requested. *)
Lemma missing_content_length_counterexample :
  (main Inputs.env_missing_length Inputs.args_default Inputs.base_world).2
    = Raise KeyError
  ∧ Get "u2" ∉ trace (main Inputs.env_missing_length Inputs.args_default
                          Inputs.base_world).1.
Proof.
  assert (Hrun : main Inputs.env_missing_length Inputs.args_default Inputs.base_world
                 = (mkWorld (<[ ["podcasts"; "Show"] := Dir ]> Inputs.base_fs)
                            [Print (NewEpisode "One.mp3"); Get "u1"] false [],
                    Raise KeyError)) by (vm_compute; reflexivity).
  rewrite Hrun. split; [reflexivity|]. simpl. intros Hin.
  elem_of_cases Hin discriminate.
Qed.

(** * Further properties *)

(** ** Sanitizer and names *)

Section name_facts.
Import Sanitizer.

Lemma drop_chars_app p a b :
  drop_chars p (a +:+ b) = drop_chars p a +:+ drop_chars p b.
Proof.
  induction a as [|c a IH]; simpl; [done|].
  destruct (p c); simpl; by rewrite IH.
Qed.

Lemma occurs_app c a b : occurs c (a +:+ b) = occurs c a || occurs c b.
Proof.
  induction a as [|d a IH]; simpl; [done|]. by rewrite IH, orb_assoc.
Qed.

Lemma format_text_clean text c :
  c ∈ unaccepted → occurs c (format_text text) = false.
Proof.
  intros Hc. rewrite format_text_strip. unfold strip.
  rewrite occurs_drop_chars. apply is_unaccepted_elem_of in Hc. by rewrite Hc.
Qed.

(** X1: [format_text] works character by character: the sanitized form
    of a concatenation is the concatenation of the sanitized forms. *)
Theorem format_text_app (a b : string) :
  format_text (a +:+ b) = format_text a +:+ format_text b.
Proof. rewrite !format_text_strip. apply drop_chars_app. Qed.

(** X2: [format_title] is idempotent: no override produces a title that
    is overridden again. *)
Theorem format_title_idempotent (title : string) :
  format_title (format_title title) = format_title title.
Proof.
  destruct (String.eqb title "At Liberty Podcast  American Civil Liberties Union")
    eqn:E1; [apply String.eqb_eq in E1; subst; vm_compute; reflexivity|].
  destruct (String.eqb title "Darknet Diaries Bonus Episodes")
    eqn:E2; [apply String.eqb_eq in E2; subst; vm_compute; reflexivity|].
  destruct (String.eqb title "Fireside Podcast – HeadStuff")
    eqn:E3; [apply String.eqb_eq in E3; subst; vm_compute; reflexivity|].
  assert (Hid : format_title title = title)
    by (unfold format_title; by rewrite E1, E2, E3).
  by rewrite !Hid.
Qed.

(** X3: the directory name of a podcast, [format_title (format_text
    title)], holds none of the blacklisted characters: the overrides do
    not bring one back. *)
Theorem directory_name_clean (title : string) (c : ascii) :
  c ∈ unaccepted → occurs c (format_title (format_text title)) = false.
Proof.
  intros Hc. unfold format_title.
  repeat match goal with
         | |- context [if String.eqb (format_text title) ?k then _ else _] =>
             destruct (String.eqb (format_text title) k);
               [elem_of_cases Hc ltac:(subst c; vm_compute; reflexivity)|]
         end.
  by apply format_text_clean.
Qed.

(** The theorem at a title with a colon and a slash. *)
Lemma directory_name_clean_witness :
  occurs "/" (format_title (format_text "News: A/B")) = false.
Proof.
  apply directory_name_clean.
  apply (bool_decide_unpack _). vm_compute. exact I.
Defined.

End name_facts.

(** ** Episode file names *)

Section filename_facts.
Import Sanitizer Feed.

Lemma length_append_string a b :
  String.length (a +:+ b) = String.length a + String.length b.
Proof. induction a as [|c a IH]; simpl; [done|]. by rewrite IH. Qed.

(** Every item of the extractor's result is one of the audio pairs. *)
Lemma extractor_items_are_audio_pairs (feed_dict : FeedParserDict) url filename :
  (url, filename) ∈ PyDict.items (generate_podcast_episode_urls feed_dict) →
  (url, filename) ∈ audio_pairs feed_dict.
Proof.
  rewrite extractor_as_update.
  assert (Hwf : PyDict.wf (PyDict.update [] (audio_pairs feed_dict)))
    by apply update_wf, NoDup_nil_2.
  rewrite (wf_elem_of_get _ _ _ Hwf), get_update. simpl.
  destruct (PyDict.get url (reverse (audio_pairs feed_dict))) eqn:G; [|done].
  intros [= ->]. apply get_reverse_last in G as (before & after & E & _).
  rewrite E, elem_of_app. right. left.
Qed.

(** A sanitized title followed by ".mp3" is a plain entry name. *)
Lemma mp3_name_plain stem p q :
  FS.joinpath p (stem +:+ ".mp3") = p ++ [stem +:+ ".mp3"]
  ∧ FS.step q (stem +:+ ".mp3") = q ++ [stem +:+ ".mp3"].
Proof.
  assert (Hlen : 4 ≤ String.length (stem +:+ ".mp3"))
    by (rewrite length_append_string; simpl; lia).
  assert (Hne : ∀ s, String.length s < 4 → String.eqb (stem +:+ ".mp3") s = false).
  { intros s Hs. apply String.eqb_neq. intros E. rewrite E in Hlen. lia. }
  unfold FS.joinpath, FS.step.
  rewrite (Hne "") by (simpl; lia). rewrite (Hne ".") by (simpl; lia).
  rewrite (Hne "..") by (simpl; lia). done.
Qed.

(** X4: every file name the extractor derives is free of the blacklisted
    characters, path separators among them, and is a plain entry name:
    joined to the podcast directory it adds exactly one component, which
    the file system resolves to an entry of that directory. *)
Theorem episode_filename_is_one_component (feed_dict : FeedParserDict)
    url filename (p q : path) :
  (url, filename) ∈ PyDict.items (generate_podcast_episode_urls feed_dict) →
  (∀ c, c ∈ unaccepted → occurs c filename = false)
  ∧ FS.joinpath p filename = p ++ [filename]
  ∧ FS.step q filename = q ++ [filename].
Proof.
  intros Hin. apply extractor_items_are_audio_pairs in Hin.
  apply elem_of_audio_pairs in Hin as (episode & link & _ & _ & _ & _ & ->).
  split; [|apply mp3_name_plain].
  intros c Hc. rewrite occurs_app, format_text_clean by done.
  elem_of_cases Hc ltac:(subst c; reflexivity).
Qed.

(** The theorem at the first episode of a feed with two episodes. *)
Lemma episode_filename_is_one_component_witness :
  FS.joinpath ["podcasts"; "Show"] "One.mp3" = ["podcasts"; "Show"; "One.mp3"].
Proof.
  apply (episode_filename_is_one_component Inputs.feed_two "u1" "One.mp3"
           ["podcasts"; "Show"] []).
  apply (bool_decide_unpack _). vm_compute. exact I.
Defined.

End filename_facts.

(** ** Listing and creating the podcast directory *)

Lemma filter_all {A} (P : A → Prop) `{!∀ x, Decision (P x)} (l : list A) :
  (∀ x, x ∈ l → P x) → filter P l = l.
Proof.
  induction l as [|x l IH]; intros Hall; [done|].
  rewrite filter_cons_True by (apply Hall; left).
  f_equal. apply IH. intros y Hy. apply Hall. by right.
Qed.

Lemma filter_none {A} (P : A → Prop) `{!∀ x, Decision (P x)} (l : list A) :
  (∀ x, x ∈ l → ¬ P x) → filter P l = [].
Proof.
  induction l as [|x l IH]; intros Hall; [done|].
  rewrite filter_cons_False by (apply Hall; left).
  apply IH. intros y Hy. apply Hall. by right.
Qed.

Section directory_facts.
Variable env : Env.

(** Putting a node at a location that is not a directory does not change
    how a path resolves. *)
Lemma walk_insert m k nd cur comps q :
  FS.walk m cur comps = inr q →
  FS.node_at m k ≠ Some Dir →
  FS.walk (<[k := nd]> m) cur comps = inr q.
Proof.
  intros Hwalk Hk. revert cur Hwalk.
  induction comps as [|c comps IH]; intros cur Hwalk; simpl in *; [done|].
  destruct (FS.node_at m cur) as [[content|]|] eqn:Hcur; try done.
  assert (Hne : cur ≠ k) by (intros ->; congruence).
  assert (Hcur' : FS.node_at (<[k := nd]> m) cur = Some Dir).
  { destruct cur as [|c0 cur]; [done|]. simpl in *.
    by rewrite lookup_insert_ne. }
  rewrite Hcur'. by apply IH.
Qed.

(** X5: [map_files] only reads: the world is the same afterwards, and it
    returns a list exactly when the path is an existing directory;
    otherwise it raises. *)
Theorem map_files_read_only (d : path) (w : World) :
  (map_files d w).1 = w
  ∧ ((∃ names, (map_files d w).2 = Return names) ↔ FS.is_dir (fs w) d = true).
Proof.
  unfold map_files, bind, FS.iterdir, FS.is_dir, ret.
  destruct (FS.resolve (fs w) d) as [e|q]; simpl.
  - split; [done|]. split; [by intros [? ?]|done].
  - destruct (FS.node_at (fs w) q) as [[content|]|]; simpl;
      (split; [done|]); split; try done; try (by intros [? ?]).
    intros _. by eexists.
Qed.

(** X6: on a first run, when the podcast directory is absent and its
    parent is there, the directory is created, the listing is empty, and
    reconciliation keeps every episode and prints nothing. *)
Theorem first_run_keeps_every_episode (warnings : bool) w p q
    (episodes : PyDict.t string) :
  FS.resolve (fs w) p = inr q →
  FS.node_at (fs w) q = None →
  (∀ n, fs w !! (q ++ [n]) = None) →
  PyDict.wf episodes →
  ensure_and_list p w = (set_fs (insert q Dir) w, Return [])
  ∧ reconcile warnings [] episodes (set_fs (insert q Dir) w)
    = (set_fs (insert q Dir) w, Return episodes).
Proof.
  intros Hres Hnone Hbelow Hwf.
  assert (Hq : q ≠ []) by (intros ->; done).
  split.
  - unfold ensure_and_list, bind, check_directory, make_directory, try_except,
      FS.is_dir, FS.mkdir.
    rewrite Hres, Hnone. cbn [fst snd].
    rewrite Hres, Hnone.
    assert (Hres' : FS.resolve (<[q := Dir]> (fs w)) p = inr q).
    { apply walk_insert; [done|]. by rewrite Hnone. }
    assert (Hdir : FS.node_at (<[q := Dir]> (fs w)) q = Some Dir).
    { destruct q; [done|]. simpl. apply lookup_insert_eq. }
    rewrite (map_files_listdir (set_fs (insert q Dir) w) p q Hres' Hdir).
    do 2 f_equal. apply elem_of_nil_inv. intros n Hn.
    apply elem_of_listdir in Hn as [nd Hnd]. simpl in Hnd.
    rewrite lookup_insert_ne in Hnd.
    + by rewrite Hbelow in Hnd.
    + intros E. apply (f_equal length) in E. rewrite length_app in E.
      simpl in E. lia.
  - rewrite reconcile_run by done. f_equal.
    + unfold notices. rewrite filter_none.
      * destruct warnings; simpl; apply log_all_nil.
      * intros x _ Hx. by apply elem_of_nil in Hx.
    + f_equal. apply filter_all. intros x _. apply not_elem_of_nil.
Qed.

(** The theorem in an empty base directory. *)
Lemma first_run_keeps_every_episode_witness :
  ensure_and_list ["podcasts"; "Show"] Inputs.base_world
  = (set_fs (insert ["podcasts"; "Show"] Dir) Inputs.base_world, Return [])
  ∧ reconcile true [] Inputs.two_episodes
      (set_fs (insert ["podcasts"; "Show"] Dir) Inputs.base_world)
    = (set_fs (insert ["podcasts"; "Show"] Dir) Inputs.base_world,
       Return Inputs.two_episodes).
Proof.
  apply first_run_keeps_every_episode.
  - vm_compute. reflexivity.
  - vm_compute. reflexivity.
  - intros n. unfold Inputs.base_world, Inputs.base_fs. simpl.
    rewrite lookup_insert_ne by discriminate. apply lookup_empty.
  - unfold PyDict.wf. apply (bool_decide_unpack _). vm_compute. exact I.
Defined.

(** X7: [make_directory] handles two errors only.  When the podcast path
    is a regular file, the creation raises [FileExistsError]; nothing is
    printed and nothing catches it, so the loop over the feeds ends
    there. *)
Theorem file_in_the_way_ends_run parent_directory (warnings : bool)
    podcast_directory_name podcast others feed feed_name
    podcast_absolute_path q content w :
  parse_rss_url env podcast = Some feed →
  Feed.feed_title feed = Some feed_name →
  podcast_absolute_path
    = FS.joinpath parent_directory
        (Sanitizer.format_title (Sanitizer.format_text feed_name)) →
  FS.resolve (fs w) podcast_absolute_path = inr q →
  FS.node_at (fs w) q = Some (File content) →
  ensure_and_list podcast_absolute_path w = (w, Raise FileExistsError)
  ∧ for_fold (process_podcast env parent_directory warnings)
             podcast_directory_name (podcast :: others) w
    = (w, Raise FileExistsError).
Proof.
  intros Hfeed Htitle Hpath Hres Hfile.
  assert (Hlist : ensure_and_list podcast_absolute_path w = (w, Raise FileExistsError)).
  { unfold ensure_and_list, bind, check_directory, make_directory, try_except,
      FS.is_dir, FS.mkdir.
    rewrite Hres, Hfile. cbn [fst snd]. by rewrite Hres, Hfile. }
  split; [done|].
  cbn [for_fold]. unfold bind at 1.
  unfold process_podcast. rewrite Hfeed, Htitle.
  unfold bind at 1. unfold try_except, ret at 1. cbn [fst snd].
  unfold bind at 1. unfold ret at 1.
  unfold bind at 1. by rewrite <- Hpath, Hlist.
Qed.

End directory_facts.

(** The theorem where the base directory holds a file named "Show". *)
Lemma file_in_the_way_ends_run_witness :
  ensure_and_list ["podcasts"; "Show"] Inputs.file_in_the_way
  = (Inputs.file_in_the_way, Raise FileExistsError)
  ∧ for_fold (process_podcast Inputs.env_missing_length ["podcasts"] false)
             None default_podcasts Inputs.file_in_the_way
    = (Inputs.file_in_the_way, Raise FileExistsError).
Proof.
  apply (file_in_the_way_ends_run Inputs.env_missing_length
           ["podcasts"] false None Inputs.first_url (tail default_podcasts)
           Inputs.feed_two "Show" ["podcasts"; "Show"] ["podcasts"; "Show"] []).
  - vm_compute. reflexivity.
  - reflexivity.
  - vm_compute. reflexivity.
  - vm_compute. reflexivity.
  - vm_compute. reflexivity.
Defined.

(** ** The OPML import *)

Section opml_facts.
Variable env : Env.

(** The inner loop of [parse_outlines] appends the [xmlUrl] of every
    entry when all of them have one. *)
Lemma outline_entries_return (entries : list Outline) (podcasts : list string) w :
  (∀ o, o ∈ entries → is_Some (xmlUrl o)) →
  for_fold (fun podcasts outline_entry =>
    match xmlUrl outline_entry with
    | Some u => ret (podcasts ++ [u])
    | None => raise AttributeError
    end) podcasts entries w
  = (w, Return (podcasts ++ omap xmlUrl entries)).
Proof.
  revert podcasts. induction entries as [|o entries IH]; intros podcasts Hall.
  - simpl. by rewrite app_nil_r.
  - cbn [for_fold]. unfold bind at 1.
    destruct (Hall o) as [u Hu]; [left|]. rewrite Hu. unfold ret at 1.
    rewrite IH by (intros o' Ho'; apply Hall; by right).
    cbn [omap list_omap]. rewrite Hu. by rewrite <- app_assoc.
Qed.

(** The inner loop raises at the first entry without [xmlUrl]. *)
Lemma outline_entries_raise (entries : list Outline) (podcasts : list string) w :
  (∃ o, o ∈ entries ∧ xmlUrl o = None) →
  for_fold (fun podcasts outline_entry =>
    match xmlUrl outline_entry with
    | Some u => ret (podcasts ++ [u])
    | None => raise AttributeError
    end) podcasts entries w
  = (w, Raise AttributeError).
Proof.
  revert podcasts. induction entries as [|o entries IH]; intros podcasts (o' & Hin & Ho').
  - by apply elem_of_nil in Hin.
  - cbn [for_fold]. unfold bind at 1.
    destruct (xmlUrl o) as [u|] eqn:Hu; [|done]. unfold ret at 1.
    apply IH. exists o'. split; [|done].
    apply elem_of_cons in Hin as [->|Hin]; [congruence|done].
Qed.

Lemma outline_groups_return (outline : list Outline) (podcasts : list string) w :
  (∀ g o, g ∈ outline → o ∈ children g → is_Some (xmlUrl o)) →
  for_fold (fun podcasts outlines =>
    for_fold (fun podcasts outline_entry =>
      match xmlUrl outline_entry with
      | Some u => ret (podcasts ++ [u])
      | None => raise AttributeError
      end) podcasts (children outlines)) podcasts outline w
  = (w, Return (podcasts ++ omap xmlUrl (flat_map children outline))).
Proof.
  revert podcasts. induction outline as [|g outline IH]; intros podcasts Hall.
  - simpl. by rewrite app_nil_r.
  - cbn [for_fold]. unfold bind at 1.
    rewrite outline_entries_return by (intros o Ho; apply (Hall g); [left|done]).
    rewrite IH by (intros g' o Hg' Ho; apply (Hall g'); [by right|done]).
    cbn [flat_map]. by rewrite omap_app, <- app_assoc.
Qed.

Lemma outline_groups_raise (outline : list Outline) (podcasts : list string) w :
  (∃ g o, g ∈ outline ∧ o ∈ children g ∧ xmlUrl o = None) →
  for_fold (fun podcasts outlines =>
    for_fold (fun podcasts outline_entry =>
      match xmlUrl outline_entry with
      | Some u => ret (podcasts ++ [u])
      | None => raise AttributeError
      end) podcasts (children outlines)) podcasts outline w
  = (w, Raise AttributeError).
Proof.
  revert podcasts.
  induction outline as [|g outline IH]; intros podcasts (g' & o & Hg' & Ho & Hnone).
  - by apply elem_of_nil in Hg'.
  - cbn [for_fold]. unfold bind at 1.
    destruct (decide (Exists (fun o => xmlUrl o = None) (children g))) as [Hex|Hall].
    + apply Exists_exists in Hex. by rewrite outline_entries_raise.
    + apply not_Exists_Forall in Hall; [|apply _].
      rewrite outline_entries_return.
      * apply IH. exists g', o. split_and!; [|done|done].
        apply elem_of_cons in Hg' as [->|Hg']; [|done].
        exfalso. rewrite Forall_forall in Hall. by apply (Hall o).
      * intros o' Ho'. rewrite Forall_forall in Hall.
        specialize (Hall o' Ho'). simpl in Hall.
        by destruct (xmlUrl o'); [eexists|].
Qed.

Lemma parse_outlines_returns (outline : list Outline) w :
  (∀ g o, g ∈ outline → o ∈ children g → is_Some (xmlUrl o)) →
  parse_outlines outline w
  = (w, Return (omap xmlUrl (flat_map children outline))).
Proof. intros Hall. unfold parse_outlines. by rewrite outline_groups_return. Qed.

(** X8: when every entry of every top-level outline has an [xmlUrl],
    [parse_outlines] returns those URLs in document order and nothing
    else: the URLs of the second level, not the [xmlUrl] of a top-level
    outline, and nothing nested deeper.  The world is not touched. *)
Theorem parse_outlines_second_level (outline : list Outline) w :
  (∀ g o, g ∈ outline → o ∈ children g → is_Some (xmlUrl o)) →
  parse_outlines outline w
  = (w, Return (omap xmlUrl (flat_map children outline))).
Proof. apply parse_outlines_returns. Qed.

(** X9: an entry without [xmlUrl] at the second level, such as a nested
    group, makes [parse_outlines] raise [AttributeError].  The call is
    outside the [try] of [parse_opml], so nothing is printed and [main]
    ends with that error before any feed is processed. *)
Theorem nested_group_raises_AttributeError args file (outline : list Outline) w :
  FS.is_dir (fs w) (directory args) = true →
  import_file args = Some file →
  opml_parse env file = inr outline →
  (∃ g o, g ∈ outline ∧ o ∈ children g ∧ xmlUrl o = None) →
  parse_outlines outline w = (w, Raise AttributeError)
  ∧ main env args w = (w, Raise AttributeError).
Proof.
  intros Hdir Himport Hparse Hex.
  assert (Hraise : parse_outlines outline w = (w, Raise AttributeError))
    by (unfold parse_outlines; by rewrite outline_groups_raise).
  split; [done|].
  unfold main. unfold bind at 1. unfold check_directory. rewrite Hdir.
  unfold bind at 1. unfold ret at 1.
  unfold bind at 1. unfold resolve_sources, parse_opml.
  rewrite Himport, Hparse. unfold bind at 1. by rewrite Hraise.
Qed.

(** X10: an OPML document that lists its feeds at the top level, without
    a group around them, gives the empty feed list: [main] returns
    without fetching a feed and without touching the world. *)
Theorem flat_opml_imports_nothing args file (outline : list Outline) w :
  FS.is_dir (fs w) (directory args) = true →
  import_file args = Some file →
  opml_parse env file = inr outline →
  (∀ g, g ∈ outline → children g = []) →
  parse_outlines outline w = (w, Return [])
  ∧ main env args w = (w, Return tt).
Proof.
  intros Hdir Himport Hparse Hflat.
  assert (Hnil : flat_map children outline = []).
  { clear Hparse. induction outline as [|g outline IH]; [done|].
    cbn [flat_map]. rewrite (Hflat g) by left.
    apply IH. intros g' Hg'. apply Hflat. by right. }
  assert (Hret : parse_outlines outline w = (w, Return [])).
  { rewrite parse_outlines_returns; [by rewrite Hnil|].
    intros g o Hg Ho. rewrite (Hflat g Hg) in Ho. by apply elem_of_nil in Ho. }
  split; [done|].
  unfold main. unfold bind at 1. unfold check_directory. rewrite Hdir.
  unfold bind at 1. unfold ret at 1.
  unfold bind at 1. unfold resolve_sources, parse_opml.
  rewrite Himport, Hparse. unfold bind at 1. rewrite Hret.
  unfold bind at 1. unfold ret at 1. reflexivity.
Qed.

End opml_facts.

(** The theorem on a document with one group of two feeds. *)
Lemma parse_outlines_second_level_witness :
  parse_outlines Inputs.grouped_outline Inputs.empty_world
  = (Inputs.empty_world, Return ["feed1"; "feed2"]).
Proof.
  apply (parse_outlines_second_level Inputs.grouped_outline Inputs.empty_world).
  intros g o Hg Ho.
  elem_of_cases Hg ltac:(subst g; elem_of_cases Ho ltac:(subst o; by eexists)).
Defined.

(** The theorem on a document whose group holds a nested group. *)
Lemma nested_group_raises_AttributeError_witness :
  parse_outlines Inputs.nested_outline Inputs.base_world
  = (Inputs.base_world, Raise AttributeError)
  ∧ main (Inputs.env_opml Inputs.nested_outline) Inputs.args_import Inputs.base_world
    = (Inputs.base_world, Raise AttributeError).
Proof.
  apply (nested_group_raises_AttributeError (Inputs.env_opml Inputs.nested_outline)
           Inputs.args_import ["feeds.opml"]).
  - vm_compute. reflexivity.
  - reflexivity.
  - reflexivity.
  - eexists _, (MkOutline None [MkOutline (Some "feed2") []]).
    split_and!; [left| |reflexivity]. simpl. right. left.
Defined.

(** The theorem on a document that lists two feeds at the top level. *)
Lemma flat_opml_imports_nothing_witness :
  parse_outlines Inputs.flat_outline Inputs.base_world
  = (Inputs.base_world, Return [])
  ∧ main (Inputs.env_opml Inputs.flat_outline) Inputs.args_import Inputs.base_world
    = (Inputs.base_world, Return tt).
Proof.
  apply (flat_opml_imports_nothing (Inputs.env_opml Inputs.flat_outline)
           Inputs.args_import ["feeds.opml"]).
  - vm_compute. reflexivity.
  - reflexivity.
  - reflexivity.
  - intros g Hg. elem_of_cases Hg ltac:(subst g; reflexivity).
Defined.

(** ** The run as a whole *)

Section run_facts.
Variable env : Env.

(** X11: when the directory argument is not an existing directory, [main]
    prints the notice and exits with status 1, whatever the other
    arguments are: no import file is read and no feed is fetched. *)
Theorem invalid_directory_exits args w :
  FS.is_dir (fs w) (directory args) = false →
  main env args w = (log (Print NotValidDirectory) w, Raise (SystemExit 1)).
Proof.
  intros Hdir. unfold main. unfold bind at 1. unfold check_directory.
  by rewrite Hdir.
Qed.



End run_facts.

(** The theorem where the base directory is missing. *)
Lemma invalid_directory_exits_witness :
  main Inputs.env_missing_length Inputs.args_import Inputs.empty_world
  = (log (Print NotValidDirectory) Inputs.empty_world, Raise (SystemExit 1)).
Proof.
  apply invalid_directory_exits. vm_compute. reflexivity.
Defined.


(** ** What a download does to the world *)

Section transfer_facts.
Variable env : Env.

(** Every slice holds at least one byte and at most [n]. *)
Lemma iter_slices_bounds fuel n (body : list byte) :
  0 < n → Forall (fun chunk => 0 < length chunk ≤ n) (iter_slices fuel n body).
Proof.
  intros Hn. revert body. induction fuel as [|fuel IH]; intros body; [constructor|].
  destruct body as [|b body]; [constructor|].
  cbn [iter_slices]. constructor; [|apply IH].
  rewrite length_take. simpl. lia.
Qed.

(** The loop of [download_episode] never raises; it touches the open
    file only, and its events are interrupts and writes of the chunks. *)
Lemma chunk_loop f (chunks : list (list byte)) w :
  Forall (fun chunk => 0 < length chunk ≤ chunk_size) chunks →
  ∃ w' evs,
    for_each (fun chunk => do_ poll_interrupt; FS.write f chunk) chunks w
    = (w', Return tt)
    ∧ (∀ k, k ≠ f → fs w' !! k = fs w !! k)
    ∧ trace w' = trace w ++ evs
    ∧ Forall (chunk_event f) evs.
Proof.
  intros Hall. revert w. induction Hall as [|chunk chunks Hchunk _ IH]; intros w.
  - exists w, []. simpl. by rewrite app_nil_r.
  - cbn [for_each]. unfold bind at 1. rewrite turn_returns.
    destruct (IH (after_chunk f chunk w)) as (w' & evs & Hrun & Hframe & Htr & Hevs).
    assert (Hturn : (∀ k, k ≠ f → fs (after_chunk f chunk w) !! k = fs w !! k)
                    ∧ ∃ evs0, trace (after_chunk f chunk w) = trace w ++ evs0
                              ∧ Forall (chunk_event f) evs0).
    { destruct w as [m tr ev [|[|] irq]]; simpl; (split;
        [intros k Hk; by rewrite lookup_alter_ne|]).
      - exists [Write f (length chunk) ev]. split; [done|].
        apply Forall_cons. split; [by split|apply Forall_nil_2].
      - exists [Sigint; Write f (length chunk) true]. split.
        + by rewrite <- app_assoc.
        + apply Forall_cons. split; [done|].
          apply Forall_cons. split; [by split|apply Forall_nil_2].
      - exists [Write f (length chunk) ev]. split; [done|].
        apply Forall_cons. split; [by split|apply Forall_nil_2]. }
    destruct Hturn as (Hframe0 & evs0 & Htr0 & Hevs0).
    exists w', (evs0 ++ evs). split_and!; [done| | |].
    + intros k Hk. by rewrite Hframe, Hframe0.
    + by rewrite Htr, Htr0, <- app_assoc.
    + by apply Forall_app.
Qed.

(** The loop on a file that was just opened: afterwards the file holds
    the whole body. *)
Lemma transfer_done q response w1 w' :
  fs w1 !! q = Some (File []) →
  for_each (fun chunk => do_ poll_interrupt; FS.write q chunk)
           (iter_content chunk_size response) w1 = (w', Return tt) →
  fs w' = <[q := File (content response)]> (fs w1)
  ∧ ∃ evs, trace w' = trace w1 ++ evs ∧ Forall (chunk_event q) evs.
Proof.
  intros Hf Hrun.
  destruct (chunks_written q (iter_content chunk_size response) w1 [] Hf)
    as (w2 & Hrun2 & Hfile & _).
  destruct (chunk_loop q (iter_content chunk_size response) w1
              (iter_slices_bounds _ _ _ chunk_size_pos))
    as (w3 & evs & Hrun3 & Hframe & Htr & Hevs).
  rewrite Hrun in Hrun2, Hrun3. injection Hrun2 as <-. injection Hrun3 as <-.
  rewrite concat_iter_content in Hfile. split; [|by exists evs].
  apply map_eq. intros k. destruct (decide (k = q)) as [->|Hk].
  - by rewrite Hfile, lookup_insert_eq.
  - by rewrite Hframe, lookup_insert_ne.
Qed.

(** What a call of [download_episode] that returns has done. *)
Lemma download_returned download_path filename url w w' :
  download_episode env download_path filename url w = (w', Return tt) →
  ∃ response q evs,
    requests_get env url = inr response
    ∧ FS.resolve (fs w) download_path = inr q
    ∧ FS.node_at (fs w) q ≠ Some Dir
    ∧ fs w' = <[q := File (content response)]> (fs w)
    ∧ trace w' = trace w ++ [Print (NewEpisode filename); Get url] ++ evs
    ∧ Forall (chunk_event q) evs.
Proof.
  unfold download_episode.
  unfold bind at 1. unfold console_print at 1.
  unfold bind at 1.
  destruct (requests_get env url) as [e|response]; [done|].
  unfold bind at 1.
  destruct (header "Content-Length" (headers response)) as [v|]; [|done].
  unfold ret at 1. unfold bind at 1.
  destruct (int_of_str env v) as [size|]; [|done].
  unfold ret at 1. unfold bind at 1. unfold FS.open_wb.
  set (w0 := log (Get url) (log (Print (NewEpisode filename)) w)).
  change (fs w0) with (fs w).
  destruct (FS.resolve (fs w) download_path) as [e|q]; [done|].
  set (w1 := set_fs (insert q (File [])) w0).
  intros Hrun.
  assert (Hnode : FS.node_at (fs w) q ≠ Some Dir).
  { intros Hdir. by rewrite Hdir in Hrun. }
  assert (Hq : q ≠ []) by (intros ->; by apply Hnode).
  assert (Hloop : for_each (fun chunk => do_ poll_interrupt; FS.write q chunk)
                    (iter_content chunk_size response) w1 = (w', Return tt)).
  { by destruct (FS.node_at (fs w) q) as [[old|]|]. }
  assert (Hf : fs w1 !! q = Some (File [])) by apply lookup_insert_eq.
  destruct (transfer_done q response w1 w' Hf Hloop) as (Hfs & evs & Htr & Hevs).
  exists response, q, evs. split_and!; [done|done|done| | |done].
  - rewrite Hfs. unfold w1, w0, set_fs, log. simpl. apply insert_insert_eq.
  - rewrite Htr. unfold w1, w0, set_fs, log. simpl. by rewrite <- !app_assoc.
Qed.

(** X13: when [download_episode] raises, no file was created, truncated
    or written: the request was made and the file system is as before.
    Every failure of a download comes before the output file is opened
    or at its opening. *)
Theorem failed_download_writes_nothing download_path filename url w w' e :
  download_episode env download_path filename url w = (w', Raise e) →
  fs w' = fs w
  ∧ trace w' = trace w ++ [Print (NewEpisode filename); Get url].
Proof.
  unfold download_episode.
  unfold bind at 1. unfold console_print at 1.
  unfold bind at 1.
  assert (Htr : ∀ w0, w0 = log (Get url) (log (Print (NewEpisode filename)) w) →
                fs w0 = fs w
                ∧ trace w0 = trace w ++ [Print (NewEpisode filename); Get url]).
  { intros w0 ->. unfold log. simpl. by rewrite <- app_assoc. }
  destruct (requests_get env url) as [e0|response];
    [intros [= <- _]; by apply Htr|].
  unfold bind at 1.
  destruct (header "Content-Length" (headers response)) as [v|];
    [|intros [= <- _]; by apply Htr].
  unfold ret at 1. unfold bind at 1.
  destruct (int_of_str env v) as [size|]; [|intros [= <- _]; by apply Htr].
  unfold ret at 1. unfold bind at 1. unfold FS.open_wb.
  set (w0 := log (Get url) (log (Print (NewEpisode filename)) w)).
  change (fs w0) with (fs w).
  destruct (FS.resolve (fs w) download_path) as [e0|q];
    [intros [= <- _]; by apply Htr|].
  destruct (FS.node_at (fs w) q) as [[old|]|];
    [|intros [= <- _]; by apply Htr|];
    intros Hrun;
    destruct (chunk_loop q (iter_content chunk_size response)
                (set_fs (insert q (File [])) w0)
                (iter_slices_bounds _ _ _ chunk_size_pos))
      as (w3 & evs & Hrun3 & _);
    rewrite Hrun in Hrun3; discriminate.
Qed.

(** X14: when [download_episode] returns, the file system differs from
    the one before in one entry only: the target, created or replaced,
    holds the whole body of the response.  No other file or directory is
    touched. *)
Theorem download_changes_one_file download_path filename url w w' :
  download_episode env download_path filename url w = (w', Return tt) →
  ∃ response q,
    requests_get env url = inr response
    ∧ FS.resolve (fs w) download_path = inr q
    ∧ fs w' = <[q := File (content response)]> (fs w).
Proof.
  intros Hrun.
  destruct (download_returned _ _ _ _ _ Hrun)
    as (response & q & evs & Hget & Hres & _ & Hfs & _).
  by exists response, q.
Qed.

(** X15: when [download_episode] returns, what it logged after the notice
    and the request are interrupts and writes to the target only, each
    write of at least 1 and at most 32768 bytes. *)
Theorem download_writes_bounded_chunks download_path filename url w w' :
  download_episode env download_path filename url w = (w', Return tt) →
  ∃ q evs,
    FS.resolve (fs w) download_path = inr q
    ∧ trace w' = trace w ++ [Print (NewEpisode filename); Get url] ++ evs
    ∧ Forall (chunk_event q) evs.
Proof.
  intros Hrun.
  destruct (download_returned _ _ _ _ _ Hrun)
    as (response & q & evs & _ & Hres & _ & _ & Htr & Hevs).
  by exists q, evs.
Qed.

End transfer_facts.

(** The theorems on single downloads, in the empty podcast directory. *)
Lemma failed_download_writes_nothing_witness :
  fs (download_episode Inputs.env_missing_length ["podcasts"; "Show"; "One.mp3"]
        "One.mp3" "u1" Inputs.show_world).1
  = fs Inputs.show_world.
Proof.
  apply (failed_download_writes_nothing Inputs.env_missing_length
           ["podcasts"; "Show"; "One.mp3"] "One.mp3" "u1" Inputs.show_world _ KeyError).
  vm_compute. reflexivity.
Defined.

Lemma download_changes_one_file_witness :
  ∃ response q,
    requests_get Inputs.env_missing_length "u2" = inr response
    ∧ FS.resolve (fs Inputs.show_world) ["podcasts"; "Show"; "Two.mp3"] = inr q
    ∧ fs (download_episode Inputs.env_missing_length ["podcasts"; "Show"; "Two.mp3"]
            "Two.mp3" "u2" Inputs.show_world).1
      = <[q := File (content response)]> (fs Inputs.show_world).
Proof.
  apply (download_changes_one_file Inputs.env_missing_length
           ["podcasts"; "Show"; "Two.mp3"] "Two.mp3" "u2" Inputs.show_world).
  vm_compute. reflexivity.
Defined.

Lemma download_writes_bounded_chunks_witness :
  ∃ q evs,
    FS.resolve (fs Inputs.show_world) ["podcasts"; "Show"; "Two.mp3"] = inr q
    ∧ trace (download_episode Inputs.env_missing_length
               ["podcasts"; "Show"; "Two.mp3"] "Two.mp3" "u2" Inputs.show_world).1
      = trace Inputs.show_world ++ [Print (NewEpisode "Two.mp3"); Get "u2"] ++ evs
    ∧ Forall (chunk_event q) evs.
Proof.
  apply (download_writes_bounded_chunks Inputs.env_missing_length
           ["podcasts"; "Show"; "Two.mp3"] "Two.mp3" "u2" Inputs.show_world).
  vm_compute. reflexivity.
Defined.

(** ** A second pass *)

Section second_pass_facts.
Variable env : Env.

Lemma walk_app m cur (a b : list string) :
  FS.walk m cur (a ++ b)
  = match FS.walk m cur a with
    | inr c => FS.walk m c b
    | inl e => inl e
    end.
Proof.
  revert cur. induction a as [|c a IH]; intros cur; simpl; [done|].
  destruct (FS.node_at m cur) as [[content|]|]; [done| |done]. apply IH.
Qed.

(** An entry name resolves below the directory its path leads to. *)
Lemma resolve_child m dir q f :
  FS.resolve m dir = inr q → FS.node_at m q = Some Dir →
  FS.resolve m (dir ++ [f]) = inr (FS.step q f).
Proof.
  intros Hres Hdir. unfold FS.resolve in *. rewrite walk_app, Hres.
  simpl. by rewrite Hdir.
Qed.

Lemma snoc_ne (q : path) (f : string) : q ≠ q ++ [f].
Proof.
  intros E. apply (f_equal length) in E. rewrite length_app in E. simpl in E. lia.
Qed.

(** The download loop keeps the podcast directory and everything in it,
    and leaves a file for every episode it went through. *)
Lemma downloads_keep_directory dir q (items : PyDict.t string) w1 w2 :
  (∀ url filename, (url, filename) ∈ items →
     FS.joinpath dir filename = dir ++ [filename]
     ∧ FS.step q filename = q ++ [filename]) →
  FS.resolve (fs w1) dir = inr q →
  FS.node_at (fs w1) q = Some Dir →
  download_new_episodes env dir items w1 = (w2, Return tt) →
  FS.resolve (fs w2) dir = inr q
  ∧ FS.node_at (fs w2) q = Some Dir
  ∧ (∀ n, is_Some (fs w1 !! (q ++ [n])) → is_Some (fs w2 !! (q ++ [n])))
  ∧ (∀ url filename, (url, filename) ∈ items → is_Some (fs w2 !! (q ++ [filename]))).
Proof.
  unfold download_new_episodes, PyDict.items.
  revert w1. induction items as [|[url filename] items IH]; intros w1 Hnames Hres Hdir Hrun.
  - simpl in Hrun. injection Hrun as <-. split_and!; [done|done|done|].
    intros u f Hin. by apply elem_of_nil in Hin.
  - cbn [for_each] in Hrun. unfold bind at 1 in Hrun. cbn [fst snd] in Hrun.
    destruct (download_episode env (FS.joinpath dir filename) filename url w1)
      as [w' [[]|e]] eqn:Hdl; [|discriminate].
    destruct (Hnames url filename) as [Hjoin Hstep]; [left|].
    destruct (download_returned env _ _ _ _ _ Hdl)
      as (response & q' & evs & _ & Hres' & Hnode & Hfs & _).
    rewrite Hjoin, (resolve_child _ _ _ _ Hres Hdir), Hstep in Hres'.
    injection Hres' as <-.
    assert (Hres1 : FS.resolve (fs w') dir = inr q).
    { rewrite Hfs. by apply walk_insert. }
    assert (Hdir1 : FS.node_at (fs w') q = Some Dir).
    { rewrite Hfs. destruct q as [|c q]; [done|]. simpl in *.
      rewrite lookup_insert_ne; [done|]. intros E. by apply (snoc_ne (c :: q) filename). }
    destruct (IH w') as (Hres2 & Hdir2 & Hkeep & Hnew); [|done|done|done|].
    { intros u f Hin. apply (Hnames u). by right. }
    split_and!; [done|done| |].
    + intros n Hn. apply Hkeep. rewrite Hfs.
      destruct (decide (q ++ [filename] = q ++ [n])) as [->|Hne].
      * rewrite lookup_insert_eq. by eexists.
      * by rewrite lookup_insert_ne.
    + intros u f [[= -> ->]|Hin]%elem_of_cons; [|by eapply Hnew].
      apply Hkeep. rewrite Hfs, lookup_insert_eq. by eexists.
Qed.

(** X16: a second pass downloads nothing.  When the podcast directory
    exists and the download loop of a pass returns, the listing taken
    afterwards holds the file name of every episode of the feed, so
    reconciliation leaves no episode to download. *)
Theorem second_pass_downloads_nothing (warnings warnings' : bool) dir q
    (episodes : PyDict.t string) w existing_files new_episodes w1 w2 :
  FS.resolve (fs w) dir = inr q →
  FS.node_at (fs w) q = Some Dir →
  PyDict.wf episodes →
  (∀ url filename, (url, filename) ∈ episodes →
     FS.joinpath dir filename = dir ++ [filename]
     ∧ FS.step q filename = q ++ [filename]) →
  map_files dir w = (w, Return existing_files) →
  reconcile warnings existing_files episodes w = (w1, Return new_episodes) →
  download_new_episodes env dir new_episodes w1 = (w2, Return tt) →
  ∃ existing_files',
    map_files dir w2 = (w2, Return existing_files')
    ∧ (∀ url filename, (url, filename) ∈ episodes → filename ∈ existing_files')
    ∧ reconcile warnings' existing_files' episodes w2
      = (log_all (notices warnings' existing_files' episodes) w2, Return []).
Proof.
  intros Hres Hdir Hwf Hnames Hlist Hrec Hdl.
  rewrite (map_files_listdir w dir q Hres Hdir) in Hlist.
  injection Hlist as <-.
  rewrite reconcile_run in Hrec by done. injection Hrec as <- <-.
  destruct (downloads_keep_directory dir q _
              (log_all (notices warnings (FS.listdir (fs w) q) episodes) w) w2
              (fun u f Hin => Hnames u f (proj2 (proj1 (list_elem_of_filter _ _ _) Hin)))
              Hres Hdir Hdl)
    as (Hres2 & Hdir2 & Hkeep & Hnew).
  exists (FS.listdir (fs w2) q).
  assert (Hall : ∀ url filename, (url, filename) ∈ episodes →
                 filename ∈ FS.listdir (fs w2) q).
  { intros url filename Hin. apply elem_of_listdir.
    destruct (decide (filename ∈ FS.listdir (fs w) q)) as [Hold|Hnot].
    - apply Hkeep. by apply elem_of_listdir in Hold.
    - apply (Hnew url). by apply list_elem_of_filter. }
  split_and!; [by apply map_files_listdir|done|].
  rewrite reconcile_run by done. do 2 f_equal.
  apply filter_none. intros [url filename] Hin Hnot. apply Hnot. by eapply Hall.
Qed.

End second_pass_facts.

(** The theorem for two episodes in the empty podcast directory. *)
Lemma second_pass_downloads_nothing_witness :
  ∃ existing_files',
    map_files ["podcasts"; "Show"]
      (download_new_episodes Inputs.env_missing_length ["podcasts"; "Show"]
         Inputs.good_episodes Inputs.show_world).1
    = ((download_new_episodes Inputs.env_missing_length ["podcasts"; "Show"]
          Inputs.good_episodes Inputs.show_world).1,
       Return existing_files')
    ∧ (∀ url filename,
         (url, filename) ∈ Inputs.good_episodes → filename ∈ existing_files')
    ∧ reconcile true existing_files' Inputs.good_episodes
        (download_new_episodes Inputs.env_missing_length ["podcasts"; "Show"]
           Inputs.good_episodes Inputs.show_world).1
      = (log_all (notices true existing_files' Inputs.good_episodes)
           (download_new_episodes Inputs.env_missing_length ["podcasts"; "Show"]
              Inputs.good_episodes Inputs.show_world).1,
         Return []).
Proof.
  apply (second_pass_downloads_nothing Inputs.env_missing_length false true
           ["podcasts"; "Show"] ["podcasts"; "Show"] Inputs.good_episodes
           Inputs.show_world [] Inputs.good_episodes Inputs.show_world).
  - vm_compute. reflexivity.
  - vm_compute. reflexivity.
  - unfold PyDict.wf. apply (bool_decide_unpack _). vm_compute. exact I.
  - intros url filename Hin.
    elem_of_cases Hin ltac:(injection Hin as -> ->; split; reflexivity).
  - vm_compute. reflexivity.
  - vm_compute. reflexivity.
  - vm_compute. reflexivity.
Defined.

(** ** What a run never undoes *)

Create HintDb steady.

Section steady_facts.
Variable env : Env.

Lemma later_refl w : later w w.
Proof. by split_and!. Qed.

Lemma later_trans w1 w2 w3 : later w1 w2 → later w2 w3 → later w1 w3.
Proof.
  intros (Ha & Hb & Hc) (Ha' & Hb' & Hc'). split_and!; eauto.
Qed.

Lemma later_log e w : later w (log e w).
Proof. by split_and!. Qed.

Lemma steady_ret {A} (a : A) : steady (ret a).
Proof. intros w. apply later_refl. Qed.

Lemma steady_raise {A} (e : exn) : steady (@raise A e).
Proof. intros w. apply later_refl. Qed.

Lemma steady_bind {A B} (m : M A) (k : A → M B) :
  steady m → (∀ a, steady (k a)) → steady (bind m k).
Proof.
  intros Hm Hk w. unfold bind. specialize (Hm w).
  destruct (m w) as [w' [a|e]]; simpl in *; [|done].
  eapply later_trans; [done|apply Hk].
Qed.

Lemma steady_try_except {A} (m : M A) (handler : exn → option (M A)) :
  steady m → (∀ e h, handler e = Some h → steady h) →
  steady (try_except m handler).
Proof.
  intros Hm Hh w. unfold try_except. specialize (Hm w).
  destruct (m w) as [w' [a|e]]; simpl in *; [done|].
  destruct (handler e) as [h|] eqn:He; [|done].
  eapply later_trans; [done|by eapply Hh].
Qed.

Lemma steady_for_each {A} (body : A → M unit) (l : list A) :
  (∀ x, steady (body x)) → steady (for_each body l).
Proof.
  intros Hbody. induction l as [|x l IH]; simpl.
  - apply steady_ret.
  - apply steady_bind; [apply Hbody|done].
Qed.

Lemma steady_for_fold {A S} (body : S → A → M S) (s : S) (l : list A) :
  (∀ s x, steady (body s x)) → steady (for_fold body s l).
Proof.
  intros Hbody. revert s. induction l as [|x l IH]; intros s; simpl.
  - apply steady_ret.
  - apply steady_bind; [apply Hbody|intros s'; apply IH].
Qed.

Lemma steady_console_print m : steady (console_print m).
Proof. intros w. apply later_log. Qed.

Lemma steady_handle_sigint : steady handle_sigint.
Proof. intros w. by split_and!. Qed.

Lemma steady_poll_interrupt : steady poll_interrupt.
Proof. intros [m tr ev [|[|] irq]]; by split_and!. Qed.

(** [mkdir] adds a directory where nothing was. *)
Lemma steady_mkdir p : steady (FS.mkdir p).
Proof.
  intros w. unfold FS.mkdir.
  destruct (FS.resolve (fs w) p) as [e|q]; [apply later_refl|].
  destruct (FS.node_at (fs w) q) as [nd|] eqn:Hq; [apply later_refl|].
  assert (Hnone : fs w !! q = None) by (by destruct q).
  simpl. split_and!; [| |done]; intros k Hk; simpl;
    (destruct (decide (q = k)) as [->|Hne];
      [rewrite Hnone in Hk; first [by destruct Hk | done]
      |by rewrite lookup_insert_ne]).
Qed.

Lemma steady_iterdir p : steady (FS.iterdir p).
Proof.
  intros w. unfold FS.iterdir.
  destruct (FS.resolve (fs w) p) as [e|q]; [apply later_refl|].
  destruct (FS.node_at (fs w) q) as [[content|]|]; apply later_refl.
Qed.

(** [open] creates or truncates a file, never where a directory is. *)
Lemma steady_open_wb p : steady (FS.open_wb p).
Proof.
  intros w. unfold FS.open_wb.
  destruct (FS.resolve (fs w) p) as [e|q]; [apply later_refl|].
  assert (Hput : FS.node_at (fs w) q ≠ Some Dir →
                 later w (set_fs (insert q (File [])) w)).
  { intros Hq. split_and!; [| |done]; intros k Hk; simpl.
    - destruct (decide (q = k)) as [->|Hne].
      + rewrite lookup_insert_eq. by eexists.
      + by rewrite lookup_insert_ne.
    - rewrite lookup_insert_ne; [done|]. intros <-. apply Hq.
      destruct q; [done|]. done. }
  destruct (FS.node_at (fs w) q) as [[content|]|] eqn:Hq; simpl;
    [by apply Hput|apply later_refl|by apply Hput].
Qed.

(** [write] extends a file and leaves a directory alone. *)
Lemma steady_write f chunk : steady (FS.write f chunk).
Proof.
  intros w. unfold FS.write. split_and!; [| |done]; intros k Hk; simpl.
  - destruct (decide (f = k)) as [->|Hne].
    + rewrite lookup_alter_eq. destruct Hk as [nd ->]. by eexists.
    + by rewrite lookup_alter_ne.
  - destruct (decide (f = k)) as [->|Hne].
    + by rewrite lookup_alter_eq, Hk.
    + by rewrite lookup_alter_ne.
Qed.

Hint Resolve steady_ret steady_raise steady_console_print steady_handle_sigint
  steady_poll_interrupt steady_mkdir steady_iterdir steady_open_wb
  steady_write : steady.

(** Steadiness of a program text: binds, loops, handlers and branches are
    taken apart down to the primitives. *)
Ltac steady_steps :=
  repeat first
    [ solve [auto with steady]
    | match goal with
      | |- forall _, _ => intro
      | |- steady (match ?x with _ => _ end) => destruct x
      | |- steady (if ?b then _ else _) => destruct b
      | H : match ?e with _ => _ end = Some _ |- _ => destruct e; try discriminate
      | H : (if ?b then _ else _) = Some _ |- _ => destruct b; try discriminate
      | H : Some _ = Some _ |- _ => injection H as <-
      end
    | apply steady_bind
    | apply steady_for_each
    | apply steady_for_fold
    | apply steady_try_except ].

Lemma steady_map_files d : steady (map_files d).
Proof. unfold map_files. steady_steps. Qed.

Lemma steady_request url :
  steady (fun w => match requests_get env url with
                   | inl e => (log (Get url) w, Raise e)
                   | inr r => (log (Get url) w, Return r)
                   end).
Proof. intros w. destruct (requests_get env url); apply later_log. Qed.

Hint Resolve steady_request : steady.

Lemma steady_download_episode download_path filename url :
  steady (download_episode env download_path filename url).
Proof. unfold download_episode. steady_steps. Qed.

Lemma steady_check_directory d : steady (check_directory d).
Proof. intros w. apply later_refl. Qed.

Lemma steady_make_directory p : steady (make_directory p).
Proof. unfold make_directory. steady_steps. Qed.

Hint Resolve steady_map_files steady_download_episode steady_check_directory
  steady_make_directory : steady.

Lemma steady_ensure_and_list p : steady (ensure_and_list p).
Proof. unfold ensure_and_list. steady_steps. Qed.

Lemma steady_reconcile (warnings : bool) existing_files episodes :
  steady (reconcile warnings existing_files episodes).
Proof. unfold reconcile. steady_steps. Qed.

Lemma steady_download_new_episodes dir new_episodes :
  steady (download_new_episodes env dir new_episodes).
Proof. unfold download_new_episodes. steady_steps. Qed.

Lemma steady_parse_outlines outline : steady (parse_outlines outline).
Proof. unfold parse_outlines. steady_steps. Qed.

Hint Resolve steady_ensure_and_list steady_reconcile
  steady_download_new_episodes steady_parse_outlines : steady.

Lemma steady_parse_opml file : steady (parse_opml env file).
Proof. unfold parse_opml. steady_steps. Qed.

Lemma steady_process_podcast parent_directory (warnings : bool)
    podcast_directory_name podcast :
  steady (process_podcast env parent_directory warnings
            podcast_directory_name podcast).
Proof.
  unfold process_podcast. destruct (parse_rss_url env podcast) as [feed|];
    steady_steps.
Qed.

Hint Resolve steady_parse_opml steady_process_podcast : steady.

Lemma steady_main args : steady (main env args).
Proof. unfold main, resolve_sources. steady_steps. Qed.

(** X17: a run never deletes: whatever [main] does and however it ends,
    every file and directory that was there before is still there, and
    every directory is still a directory. *)
Theorem main_never_deletes args w (k : path) :
  is_Some (fs w !! k) →
  is_Some (fs (main env args w).1 !! k)
  ∧ (fs w !! k = Some Dir → fs (main env args w).1 !! k = Some Dir).
Proof.
  intros Hk. destruct (steady_main args w) as (Hkeep & Hdirs & _).
  split; [by apply Hkeep|apply Hdirs].
Qed.

(** X18: the cancellation event is never reset: when it is set as a run
    starts, it is set when [main] ends, however it ends. *)
Theorem main_keeps_done_event args w :
  done_event w = true → done_event (main env args w).1 = true.
Proof. intros Hset. by destruct (steady_main args w) as (_ & _ & Hev); auto. Qed.

End steady_facts.

(** The theorems on the built-in list with one feed of two episodes. *)
Lemma main_never_deletes_witness :
  is_Some (fs (main Inputs.env_missing_length Inputs.args_default
                 Inputs.populated_world).1 !! ["podcasts"; "Show"; "A.mp3"])
  ∧ (fs Inputs.populated_world !! ["podcasts"; "Show"; "A.mp3"] = Some Dir →
     fs (main Inputs.env_missing_length Inputs.args_default
           Inputs.populated_world).1 !! ["podcasts"; "Show"; "A.mp3"] = Some Dir).
Proof.
  apply main_never_deletes. vm_compute. by eexists.
Defined.

Lemma main_keeps_done_event_witness :
  done_event (main Inputs.env_missing_length Inputs.args_default
                Inputs.cancelled_world).1 = true.
Proof. apply main_keeps_done_event. reflexivity. Defined.

(** ** Episodes that share a file name *)

Section last_write_facts.
Variable env : Env.

Lemma for_each_app {A} (body : A → M unit) (l1 l2 : list A) w :
  for_each body (l1 ++ l2) w
  = match for_each body l1 w with
    | (w', Return _) => for_each body l2 w'
    | (w', Raise e) => (w', Raise e)
    end.
Proof.
  revert w. induction l1 as [|x l1 IH]; intros w; [done|].
  cbn [app for_each]. unfold bind.
  destruct (body x w) as [w' [[]|e]]; [apply IH|done].
Qed.

(** The download loop leaves alone every location that is not the target
    of one of its items. *)
Lemma downloads_frame dir q (items : PyDict.t string) w1 w2 k :
  (∀ url filename, (url, filename) ∈ items →
     FS.joinpath dir filename = dir ++ [filename]
     ∧ FS.step q filename = q ++ [filename]) →
  FS.resolve (fs w1) dir = inr q →
  FS.node_at (fs w1) q = Some Dir →
  download_new_episodes env dir items w1 = (w2, Return tt) →
  (∀ url filename, (url, filename) ∈ items → k ≠ q ++ [filename]) →
  fs w2 !! k = fs w1 !! k.
Proof.
  unfold download_new_episodes, PyDict.items.
  revert w1. induction items as [|[url filename] items IH];
    intros w1 Hnames Hres Hdir Hrun Hk.
  - simpl in Hrun. by injection Hrun as <-.
  - cbn [for_each] in Hrun. unfold bind at 1 in Hrun. cbn [fst snd] in Hrun.
    destruct (download_episode env (FS.joinpath dir filename) filename url w1)
      as [w' [[]|e]] eqn:Hdl; [|discriminate].
    destruct (Hnames url filename) as [Hjoin Hstep]; [left|].
    destruct (download_returned env _ _ _ _ _ Hdl)
      as (response & q' & evs & _ & Hres' & Hnode & Hfs & _).
    rewrite Hjoin, (resolve_child _ _ _ _ Hres Hdir), Hstep in Hres'.
    injection Hres' as <-.
    assert (Hres1 : FS.resolve (fs w') dir = inr q).
    { rewrite Hfs. by apply walk_insert. }
    assert (Hdir1 : FS.node_at (fs w') q = Some Dir).
    { rewrite Hfs. destruct q as [|c q]; [done|]. simpl in *.
      rewrite lookup_insert_ne; [done|]. intros E. by apply (snoc_ne (c :: q) filename). }
    rewrite (IH w'); [| |done|done|done|].
    + rewrite Hfs, lookup_insert_ne; [done|].
      intros E. by apply (Hk url filename); [left|].
    + intros u f Hin. apply (Hnames u). by right.
    + intros u f Hin. apply (Hk u). by right.
Qed.

(** X19: when several new episodes share a file name, the last one wins:
    after the download loop returned, a file holds the body that the URL
    of the last item with that file name answered. *)
Theorem last_download_wins dir q (before after : PyDict.t string)
    url filename w w' :
  (∀ u f, (u, f) ∈ before ++ (url, filename) :: after →
     FS.joinpath dir f = dir ++ [f] ∧ FS.step q f = q ++ [f]) →
  FS.resolve (fs w) dir = inr q →
  FS.node_at (fs w) q = Some Dir →
  filename ∉ after.*2 →
  download_new_episodes env dir (before ++ (url, filename) :: after) w
    = (w', Return tt) →
  ∃ response,
    requests_get env url = inr response
    ∧ fs w' !! (q ++ [filename]) = Some (File (content response)).
Proof.
  intros Hnames Hres Hdir Hlast Hrun.
  unfold download_new_episodes, PyDict.items in Hrun.
  rewrite for_each_app in Hrun.
  destruct (for_each _ before w) as [w1 [[]|e]] eqn:Hbefore; [|discriminate].
  destruct (downloads_keep_directory env dir q before w w1) as (Hres1 & Hdir1 & _);
    [intros u f Hin; apply (Hnames u); apply elem_of_app; by left|done|done|done|].
  cbn [for_each] in Hrun. unfold bind at 1 in Hrun. cbn [fst snd] in Hrun.
  destruct (download_episode env (FS.joinpath dir filename) filename url w1)
    as [w2 [[]|e]] eqn:Hdl; [|discriminate].
  destruct (Hnames url filename) as [Hjoin Hstep];
    [apply elem_of_app; right; left|].
  destruct (download_returned env _ _ _ _ _ Hdl)
    as (response & q' & evs & Hget & Hres' & Hnode & Hfs & _).
  rewrite Hjoin, (resolve_child _ _ _ _ Hres1 Hdir1), Hstep in Hres'.
  injection Hres' as <-.
  exists response. split; [done|].
  assert (Hres2 : FS.resolve (fs w2) dir = inr q).
  { rewrite Hfs. by apply walk_insert. }
  assert (Hdir2 : FS.node_at (fs w2) q = Some Dir).
  { rewrite Hfs. destruct q as [|c q]; [done|]. simpl in *.
    rewrite lookup_insert_ne; [done|]. intros E. by apply (snoc_ne (c :: q) filename). }
  rewrite (downloads_frame dir q after w2 w' (q ++ [filename])); [| |done|done|done|].
  - by rewrite Hfs, lookup_insert_eq.
  - intros u f Hin. apply (Hnames u). apply elem_of_app. right. by right.
  - intros u f Hin E. apply app_inv_head in E. injection E as ->.
    apply Hlast. apply list_elem_of_fmap. by exists (u, f).
Qed.

End last_write_facts.

(** The theorem for two episodes named alike: the file holds the body of
    the second. *)
Lemma last_download_wins_witness :
  ∃ response,
    requests_get Inputs.env_missing_length "u3" = inr response
    ∧ fs (download_new_episodes Inputs.env_missing_length ["podcasts"; "Show"]
            Inputs.same_name_episodes Inputs.show_world).1
        !! (["podcasts"; "Show"] ++ ["Same.mp3"])
      = Some (File (content response)).
Proof.
  apply (last_download_wins Inputs.env_missing_length ["podcasts"; "Show"]
           ["podcasts"; "Show"] [("u2", "Same.mp3")] [] "u3" "Same.mp3"
           Inputs.show_world).
  - intros u f Hin.
    elem_of_cases Hin ltac:(injection Hin as -> ->; split; reflexivity).
  - vm_compute. reflexivity.
  - vm_compute. reflexivity.
  - apply not_elem_of_nil.
  - vm_compute. reflexivity.
Defined.
